(** * Pirata NFT contract (FA2, SmartPy): shallow embedding and properties

    The contract of [pirata_nft_contract.py] is embedded as pure functions
    over an explicit storage record.  An entry point is a function from the
    sender, its parameters and the storage to a [result]: either the new
    storage or the message of the [sp.verify]/[sp.failwith] that aborted it.
    Big maps and maps are [gmap]s, [sp.TNat] is [nat], [sp.TBytes] is a list
    of bytes, addresses are strings. *)

From Stdlib Require Import ZArith NArith.
From Stdlib.Strings Require Import Byte.
From stdpp Require Import gmap strings list fin_maps.
From Equations Require Import Equations.

Local Open Scope string_scope.
Local Open Scope list_scope.

(** ** Types *)

Abbreviation address := string (only parsing).
Abbreviation bytes := (list byte) (only parsing).

(** [t_operator_permission] *)
Record operator_permission := {
  op_owner : address;
  op_operator : address;
  op_token_id : nat
}.

#[global] Instance operator_permission_eq_dec : EqDecision operator_permission.
Proof. solve_decision. Defined.

#[global] Instance operator_permission_countable : Countable operator_permission.
Proof.
  refine (inj_countable'
    (fun p => (op_owner p, op_operator p, op_token_id p))
    (fun t => {| op_owner := t.1.1; op_operator := t.1.2; op_token_id := t.2 |}) _).
  intros []. reflexivity.
Defined.

(** [t_update_operators_params] is a list of these variants. *)
Inductive operator_action :=
| add_operator (operator : operator_permission)
| remove_operator (operator : operator_permission).

(** One element of [txs] in [t_transfer_batch]. *)
Record tx_record := {
  tx_to_ : address;
  tx_token_id : nat;
  tx_amount : nat
}.

(** [t_transfer_batch] *)
Record transfer_batch := {
  from_ : address;
  txs : list tx_record
}.

(** [t_balance_of_request] and [t_balance_of_response] *)
Record balance_of_request := {
  req_owner : address;
  req_token_id : nat
}.

Record balance_of_response := {
  request : balance_of_request;
  balance : nat
}.

(** [t_balance_of_params]; the callback contract is named by its address. *)
Record balance_of_params := {
  callback : address;
  requests : list balance_of_request
}.

(** The value type of the [token_metadata] big map. *)
Record token_metadata_value := {
  tm_token_id : nat;
  tm_token_info : gmap string bytes
}.

(** The storage record, assembled by [Fa2Nft.__init__], [Common.__init__],
    [OwnerOrOperatorTransfer.init_policy] and [Admin.__init__]. *)
Record storage := {
  ledger : gmap nat address;
  metadata : gmap string bytes;
  last_token_id : nat;
  token_metadata : gmap nat token_metadata_value;
  operators : gmap operator_permission unit;
  administrator : address
}.

Definition set_ledger (l : gmap nat address) (s : storage) : storage :=
  {| ledger := l; metadata := metadata s; last_token_id := last_token_id s;
     token_metadata := token_metadata s; operators := operators s;
     administrator := administrator s |}.

Definition set_metadata_field (m : gmap string bytes) (s : storage) : storage :=
  {| ledger := ledger s; metadata := m; last_token_id := last_token_id s;
     token_metadata := token_metadata s; operators := operators s;
     administrator := administrator s |}.

Definition set_last_token_id (n : nat) (s : storage) : storage :=
  {| ledger := ledger s; metadata := metadata s; last_token_id := n;
     token_metadata := token_metadata s; operators := operators s;
     administrator := administrator s |}.

Definition set_token_metadata (t : gmap nat token_metadata_value) (s : storage) : storage :=
  {| ledger := ledger s; metadata := metadata s; last_token_id := last_token_id s;
     token_metadata := t; operators := operators s;
     administrator := administrator s |}.

Definition set_operators (o : gmap operator_permission unit) (s : storage) : storage :=
  {| ledger := ledger s; metadata := metadata s; last_token_id := last_token_id s;
     token_metadata := token_metadata s; operators := o;
     administrator := administrator s |}.

Definition set_administrator_field (a : address) (s : storage) : storage :=
  {| ledger := ledger s; metadata := metadata s; last_token_id := last_token_id s;
     token_metadata := token_metadata s; operators := operators s;
     administrator := a |}.

(** ** Failures

    The messages of the contract's [sp.verify] and [sp.failwith], and the
    two failures the SmartPy runtime raises by itself: reading a map at a
    key it does not hold, and [open_some] on [None]. *)
Inductive error :=
| FA2_TOKEN_UNDEFINED
| FA2_NOT_OPERATOR
| FA2_NOT_OWNER
| FA2_NOT_ADMIN
| FA2_INSUFFICIENT_BALANCE
| FA2_TX_DENIED
| FA2_OPERATORS_UNSUPPORTED
| GET_ITEM_MISSING_KEY
| OPEN_SOME_NONE.

#[global] Instance error_eq_dec : EqDecision error.
Proof. solve_decision. Defined.

Inductive result (A : Type) :=
| Ok (a : A)
| Err (e : error).
Arguments Ok {A} a.
Arguments Err {A} e.

Definition bind {A B} (r : result A) (k : A -> result B) : result B :=
  match r with
  | Ok a => k a
  | Err e => Err e
  end.

Notation "x <- r ;; k" := (bind r (fun x => k))
  (at level 100, r at next level, right associativity).
Notation "r ;;; k" := (bind r (fun _ => k))
  (at level 100, right associativity).

(** [sp.verify(cond, message)] *)
Definition verify (cond : bool) (message : error) : result unit :=
  if cond then Ok tt else Err message.

(** [m[k]] read as an expression: fails when the key is absent. *)
Definition get_item `{Countable K} {V} (m : gmap K V) (k : K) : result V :=
  match m !! k with
  | Some v => Ok v
  | None => Err GET_ITEM_MISSING_KEY
  end.

(** [m.contains(k)] *)
Definition contains `{Countable K} {V} (m : gmap K V) (k : K) : bool :=
  bool_decide (is_Some (m !! k)).

(** [o.open_some()] *)
Definition open_some {A} (o : option A) : result A :=
  match o with
  | Some a => Ok a
  | None => Err OPEN_SOME_NONE
  end.

(** [with sp.for_(x, l) as x: body], the storage threaded through the
    iterations and the first failure aborting the loop. *)
Fixpoint for_ {A S : Type} (l : list A) (body : A -> S -> result S) (s : S) : result S :=
  match l with
  | [] => Ok s
  | x :: l' => s' <- body x s ;; for_ l' body s'
  end.

(** [l.map(f)] with a body that may fail. *)
Fixpoint map_result {A B : Type} (f : A -> result B) (l : list A) : result (list B) :=
  match l with
  | [] => Ok []
  | x :: l' => y <- f x ;; ys <- map_result f l' ;; Ok (y :: ys)
  end.

(** What the host does with a call: the storage after a failed call is the
    storage before it. *)
Definition call (entry_point : storage -> result storage) (s : storage)
  : storage * option error :=
  match entry_point s with
  | Ok s' => (s', None)
  | Err e => (s, Some e)
  end.

(** ** [sp.pack] and [sp.unpack]

    [usage] has type [sp.TIntOrNat]; it is embedded as an integer.  The
    contract only relies on [unpack] inverting [pack]. *)
Class Codec := {
  pack : Z -> bytes;
  unpack : bytes -> option Z;
  unpack_pack : forall z, unpack (pack z) = Some z
}.

(** ** Policies *)

(** The interface [Common] expects of [self.policy]. *)
Record policy := {
  name : string;
  supports_transfer : bool;
  supports_operator : bool;
  check_tx_transfer_permissions :
    storage -> address -> address -> address -> nat -> result unit;
  check_operator_update_permissions :
    storage -> address -> operator_permission -> result unit;
  policy_is_operator : storage -> operator_permission -> bool
}.

Module OwnerOrOperatorTransfer.

Definition check_tx_transfer_permissions
    (contract : storage) (sender from_ to_ : address) (token_id : nat) : result unit :=
  verify
    (bool_decide (sender = from_)
     || contains (operators contract)
          {| op_owner := from_; op_operator := sender; op_token_id := token_id |})
    FA2_NOT_OPERATOR.

Definition check_operator_update_permissions
    (contract : storage) (sender : address) (operator_permission : operator_permission)
  : result unit :=
  verify (bool_decide (op_owner operator_permission = sender)) FA2_NOT_OWNER.

Definition is_operator (contract : storage) (operator_permission : operator_permission)
  : bool :=
  contains (operators contract) operator_permission.

Definition init_policy : policy :=
  Build_policy "owner-or-operator-transfer" true true
    check_tx_transfer_permissions check_operator_update_permissions is_operator.

End OwnerOrOperatorTransfer.

(** ** [Fa2Nft] ledger functions *)

Definition is_defined (s : storage) (token_id : nat) : bool :=
  contains (token_metadata s) token_id.

Definition balance_ (s : storage) (owner : address) (token_id : nat) : result nat :=
  verify (is_defined s token_id) FA2_TOKEN_UNDEFINED ;;;
  o <- get_item (ledger s) token_id ;;
  Ok (if bool_decide (o = owner) then 1 else 0).

Definition supply_ (s : storage) (token_id : nat) : result nat :=
  verify (is_defined s token_id) FA2_TOKEN_UNDEFINED ;;;
  Ok 1.

(** [&] is lazy: the ledger is read only when [tx.amount == 1]. *)
Definition transfer_tx_ (from_ : address) (tx : tx_record) (s : storage) : result storage :=
  c <- (if bool_decide (tx_amount tx = 1)
        then o <- get_item (ledger s) (tx_token_id tx) ;; Ok (bool_decide (o = from_))
        else Ok false) ;;
  verify c FA2_INSUFFICIENT_BALANCE ;;;
  Ok (set_ledger (<[tx_token_id tx := tx_to_ tx]> (ledger s)) s).

(** ** [Common] *)

Definition balance_of_batch (s : storage) (requests : list balance_of_request)
  : result (list balance_of_response) :=
  map_result
    (fun req =>
       b <- balance_ s (req_owner req) (req_token_id req) ;;
       Ok {| request := req; balance := b |})
    requests.

(** The body of the loop of [update_operators]. *)
Definition update_operators_action (p : policy) (sender : address)
    (action : operator_action) (s : storage) : result storage :=
  match action with
  | add_operator operator =>
      check_operator_update_permissions p s sender operator ;;;
      Ok (set_operators (<[operator := tt]> (operators s)) s)
  | remove_operator operator =>
      check_operator_update_permissions p s sender operator ;;;
      Ok (set_operators (delete operator (operators s)) s)
  end.

Definition update_operators (p : policy) (sender : address)
    (batch : list operator_action) (s : storage) : result storage :=
  if supports_operator p then
    for_ batch (update_operators_action p sender) s
  else
    Err FA2_OPERATORS_UNSUPPORTED.

(** [sp.transfer(arg, sp.mutez(0), destination)]: the emitted operation. *)
Record operation := {
  op_destination : address;
  op_argument : list balance_of_response
}.

Definition balance_of (params : balance_of_params) (s : storage)
  : result (storage * list operation) :=
  r <- balance_of_batch s (requests params) ;;
  Ok (s, [ {| op_destination := callback params; op_argument := r |} ]).

(** The body of the inner loop of [transfer]: one leg. *)
Definition transfer_leg (p : policy) (sender : address) (from_ : address)
    (tx : tx_record) (s : storage) : result storage :=
  verify (is_defined s (tx_token_id tx)) FA2_TOKEN_UNDEFINED ;;;
  check_tx_transfer_permissions p s sender from_ (tx_to_ tx) (tx_token_id tx) ;;;
  if bool_decide (0 < tx_amount tx) then transfer_tx_ from_ tx s else Ok s.

Definition transfer (p : policy) (sender : address)
    (batch : list transfer_batch) (s : storage) : result storage :=
  if supports_transfer p then
    for_ batch
      (fun transfer s =>
         for_ (txs transfer) (transfer_leg p sender (from_ transfer)) s)
      s
  else
    Err FA2_TX_DENIED.

(** Offchain views. *)
Definition all_tokens (s : storage) : list nat :=
  seq 0 (last_token_id s).

Definition is_operator (p : policy) (s : storage) (params : operator_permission) : bool :=
  policy_is_operator p s params.

Definition get_balance (s : storage) (params : balance_of_request) : result nat :=
  balance_ s (req_owner params) (req_token_id params).

Definition total_supply (s : storage) (token_id : nat) : result nat :=
  verify (is_defined s token_id) FA2_TOKEN_UNDEFINED ;;;
  supply_ s token_id.

(** ** Mixins [Admin] and [ChangeMetadata] *)

Definition is_administrator (s : storage) (sender : address) : bool :=
  bool_decide (sender = administrator s).

Definition set_administrator (sender : address) (params : address) (s : storage)
  : result storage :=
  verify (is_administrator s sender) FA2_NOT_ADMIN ;;;
  Ok (set_administrator_field params s).

Definition set_metadata (sender : address) (metadata : gmap string bytes) (s : storage)
  : result storage :=
  verify (is_administrator s sender) FA2_NOT_ADMIN ;;;
  Ok (set_metadata_field metadata s).

(** ** [Nft] *)

Definition mint (sender : address) (owner : address) (token_info : gmap string bytes)
    (s : storage) : result storage :=
  verify (is_administrator s sender) FA2_NOT_ADMIN ;;;
  let token_id := last_token_id s in
  let s := set_ledger (<[token_id := owner]> (ledger s)) s in
  let s := set_token_metadata
             (<[token_id := {| tm_token_id := token_id; tm_token_info := token_info |}]>
                (token_metadata s)) s in
  Ok (set_last_token_id (last_token_id s + 1) s).

Definition get_usage `{Codec} (s : storage) (token_id : nat) : result Z :=
  entry <- get_item (token_metadata s) token_id ;;
  let token_info := tm_token_info entry in
  packed <- get_item token_info "usage" ;;
  usage <- open_some (unpack packed) ;;
  Ok usage.

(** [sender] is not read: the entry point has no [sp.verify] on it. *)
Definition update_usage `{Codec} (sender : address) (token_id : nat) (s : storage)
  : result storage :=
  entry <- get_item (token_metadata s) token_id ;;
  let token_info := tm_token_info entry in
  packed <- get_item token_info "usage" ;;
  usage <- open_some (unpack packed) ;;
  let usage := (usage + 1)%Z in
  entry <- get_item (token_metadata s) token_id ;;
  Ok (set_token_metadata
        (<[token_id := {| tm_token_id := tm_token_id entry;
                          tm_token_info := <["usage" := pack usage]> (tm_token_info entry) |}]>
           (token_metadata s)) s).

Definition get_owner (s : storage) (token_id : nat) : result address :=
  get_item (ledger s) token_id.

(** ** Origination *)

(** [Fa2Nft.initial_mint]; [None] stands for the raised exception. *)
Definition initial_mint (token_metadata : list (gmap string bytes))
    (ledger : gmap nat address)
  : option (gmap nat address * gmap nat token_metadata_value) :=
  let token_metadata_dict : gmap nat token_metadata_value :=
    map_imap
      (fun token_id metadata =>
         Some {| tm_token_id := token_id; tm_token_info := metadata |})
      (map_seq 0 token_metadata) in
  if decide (map_Forall (fun token_id _ => is_Some (token_metadata_dict !! token_id)) ledger)
  then Some (ledger, token_metadata_dict)
  else None.

(** [Nft.__init__]: [Fa2Nft.__init__] then [Admin.__init__]. *)
Definition Nft_init (admin : address) (metadata : gmap string bytes)
    (token_metadata : list (gmap string bytes)) (ledger : gmap nat address)
  : option storage :=
  match initial_mint token_metadata ledger with
  | Some (ledger, token_metadata_dict) =>
      Some {| ledger := ledger;
              metadata := metadata;
              last_token_id := length token_metadata;
              token_metadata := token_metadata_dict;
              operators := ∅;
              administrator := admin |}
  | None => None
  end.

(** [Common.__init__]: the policy defaults to [OwnerOrOperatorTransfer]. *)
Definition Common_policy (given : option policy) : policy :=
  match given with
  | None => OwnerOrOperatorTransfer.init_policy
  | Some p => p
  end.

(** ** The Michelson serialization of integers

    A concrete [pack]/[unpack] pair: [PACK] writes the byte [05], the
    Micheline integer tag [00] and the integer as a little-endian variable
    length number.  Its first byte carries six bits of the absolute value,
    the sign in bit 6 and the continuation flag in bit 7; every further
    byte carries seven bits and the continuation flag. *)

Equations? zarith_tail (n : N) : list N by wf (N.to_nat n) lt :=
  zarith_tail n with decide (n < 128)%N => {
    | left _ := [n];
    | right _ := (128 + n mod 128)%N :: zarith_tail (n / 128)%N }.
Proof. assert (n / 128 < n)%N by (apply N.div_lt; lia). lia. Qed.

Definition zarith (z : Z) : list N :=
  let a := Z.abs_N z in
  let sign := if decide (z < 0)%Z then 64%N else 0%N in
  if decide (a < 64)%N then [(sign + a)%N]
  else (128 + sign + a mod 64)%N :: zarith_tail (a / 64)%N.

Fixpoint unzarith_tail (bs : list N) : option N :=
  match bs with
  | [] => None
  | b :: rest =>
      if decide (b < 128)%N then
        match rest with [] => Some b | _ :: _ => None end
      else
        n ← unzarith_tail rest; Some (b - 128 + 128 * n)%N
  end.

Definition unzarith (bs : list N) : option Z :=
  match bs with
  | [] => None
  | b :: rest =>
      let low := (b mod 64)%N in
      a ← (if decide (b < 128)%N then
             match rest with [] => Some low | _ :: _ => None end
           else
             n ← unzarith_tail rest; Some (low + 64 * n)%N);
      Some (if decide ((b / 64) mod 2 = 1)%N then (- Z.of_N a)%Z else Z.of_N a)
  end.

Definition byte_of_N (n : N) : byte := default x00 (Byte.of_N n).

Definition michelson_pack (z : Z) : bytes :=
  x05 :: x00 :: map byte_of_N (zarith z).

Definition michelson_unpack (b : bytes) : option Z :=
  match b with
  | x05 :: x00 :: rest => unzarith (map Byte.to_N rest)
  | _ => None
  end.

(** ** Specification vocabulary *)

(** The legs of a transfer batch in processing order: outer list first,
    then the [txs] of each element, each paired with its [from_]. *)
Definition legs (batch : list transfer_batch) : list (address * tx_record) :=
  flat_map (fun transfer => map (pair (from_ transfer)) (txs transfer)) batch.

Definition run_legs (p : policy) (sender : address)
    (l : list (address * tx_record)) (s : storage) : result storage :=
  for_ l (fun leg => transfer_leg p sender leg.1 leg.2) s.

(** What a successful leg does to the ledger. *)
Definition apply_leg (l : gmap nat address) (leg : address * tx_record) : gmap nat address :=
  if bool_decide (0 < tx_amount leg.2) then <[tx_token_id leg.2 := tx_to_ leg.2]> l else l.

(** The permission an [update_operators] item names, and what a
    successful item does to the operator set. *)
Definition action_permission (action : operator_action) : operator_permission :=
  match action with
  | add_operator operator => operator
  | remove_operator operator => operator
  end.

Definition apply_action (o : gmap operator_permission unit) (action : operator_action)
  : gmap operator_permission unit :=
  match action with
  | add_operator operator => <[operator := tt]> o
  | remove_operator operator => delete operator o
  end.

(** The calls the contract accepts, and their dispatch. *)
Inductive entry_point :=
| Transfer (batch : list transfer_batch)
| Update_operators (batch : list operator_action)
| Balance_of (params : balance_of_params)
| Mint (owner : address) (token_info : gmap string bytes)
| Update_usage (token_id : nat)
| Set_administrator (params : address)
| Set_metadata (metadata : gmap string bytes).

Definition dispatch `{Codec} (p : policy) (sender : address) (ep : entry_point)
    (s : storage) : result storage :=
  match ep with
  | Transfer batch => transfer p sender batch s
  | Update_operators batch => update_operators p sender batch s
  | Balance_of params => r <- balance_of params s ;; Ok r.1
  | Mint owner token_info => mint sender owner token_info s
  | Update_usage token_id => update_usage sender token_id s
  | Set_administrator params => set_administrator sender params s
  | Set_metadata metadata => set_metadata sender metadata s
  end.

(** Storages the contract can be in: the originated one, then any number
    of calls, failed ones included. *)
Inductive reachable `{Codec} (p : policy) (s0 : storage) : storage -> Prop :=
| reachable_origin : reachable p s0 s0
| reachable_call s sender ep :
    reachable p s0 s ->
    reachable p s0 (call (dispatch p sender ep) s).1.

(** Token ids are handed out in sequence: every id that has metadata or an
    owner is below [last_token_id], and the defined ids are exactly the
    ids below it. *)
Definition token_ids_inv (s : storage) : Prop :=
  (forall token_id,
      is_Some (token_metadata s !! token_id) \/ is_Some (ledger s !! token_id) ->
      token_id < last_token_id s)
  /\ (forall token_id, is_defined s token_id = true <-> token_id < last_token_id s).

(** Every defined token has an owner. *)
Definition owned_inv (s : storage) : Prop :=
  forall token_id, is_defined s token_id = true -> is_Some (ledger s !! token_id).

(** A caller may move [token_id] out of [from_]'s hands when it is [from_]
    itself or a registered operator of [from_] for that token. *)
Definition authorized (s : storage) (sender from_ : address) (token_id : nat) : Prop :=
  sender = from_
  \/ is_Some (operators s !! {| op_owner := from_; op_operator := sender;
                               op_token_id := token_id |}).

(** ** The test scenario of the source *)

Definition tanoy : address := "tz1Vf4cQ6dcywPXVY6QZnsMELEzXNSX9yMxL".
Definition abby : address := "tz1PaBo1wAwoSipwW2ubbotpywAZaPuC3oQ9".

(** [sp.utils.bytes_of_string] *)
Definition bytes_of_string (str : string) : bytes := String.list_byte_of_string str.

(** [sp.utils.metadata_of_url] *)
Definition metadata_of_url (url : string) : gmap string bytes :=
  {[ "" := bytes_of_string url ]}.

(** [Nft(admin=abby, metadata=...)], neither [token_metadata] nor [ledger]
    given. *)
Definition nft_pirata : option storage :=
  Nft_init abby
    (metadata_of_url "ipfs://QmRbmXcd2yfNVdgHL7oYWS2yd3tztr2NZiqP2LFuw3voPW") [] ∅.

Definition scenario_token_info `{Codec} : gmap string bytes :=
  <["" := bytes_of_string "ipfs://QmTKHffrVCKda3WKs1qyyJna7EjHM5Wdzf3LJVeejgaz61"]>
    (<["usage" := pack 0]> ∅).

Definition scenario_transfer : list transfer_batch :=
  [ {| from_ := tanoy;
       txs := [ {| tx_to_ := abby; tx_token_id := 0; tx_amount := 1 |} ] |} ].

(** The storage after the first [n] steps of the scenario: mint, transfer,
    the rejected second transfer, [update_usage]. *)
Definition scenario_steps `{Codec} : list (address * entry_point) :=
  [ (abby, Mint tanoy scenario_token_info);
    (tanoy, Transfer scenario_transfer);
    (tanoy, Transfer scenario_transfer);
    (tanoy, Update_usage 0) ].

Definition run_scenario `{Codec} (n : nat) : option storage :=
  s0 ← nft_pirata;
  Some (foldl
          (fun s step =>
             (call (dispatch OwnerOrOperatorTransfer.init_policy step.1 step.2) s).1)
          s0 (take n scenario_steps)).

(** A storage with token 0 minted to [tanoy], written out. *)
Definition minted : storage :=
  {| ledger := {[ 0 := tanoy ]};
     metadata := ∅;
     last_token_id := 1;
     token_metadata :=
       {[ 0 := {| tm_token_id := 0;
                  tm_token_info := {[ "usage" := [x05; x00; x00] ]} |} ]};
     operators := ∅;
     administrator := abby |}.

#[global] Instance authorized_dec (s : storage) (sender from_ : address) (token_id : nat) :
  Decision (authorized s sender from_ token_id).
Proof. unfold authorized. apply _. Defined.

(** Two legs in one batch: the first moves token 0 away from [tanoy], the
    second asks for the same move again. *)
Definition twice_transfer : list transfer_batch :=
  [ {| from_ := tanoy;
       txs := [ {| tx_to_ := abby; tx_token_id := 0; tx_amount := 1 |};
                {| tx_to_ := abby; tx_token_id := 0; tx_amount := 1 |} ] |} ].

(** The storage [Nft(admin=abby, metadata={}, token_metadata=[{}])]
    originates: token 0 has metadata and the ledger is empty. *)
Definition unowned : storage :=
  {| ledger := ∅;
     metadata := ∅;
     last_token_id := 1;
     token_metadata := {[ 0 := {| tm_token_id := 0; tm_token_info := ∅ |} ]};
     operators := ∅;
     administrator := abby |}.

(** Every [token_metadata] entry records the key it is stored under. *)
Definition token_id_field_inv (s : storage) : Prop :=
  forall token_id entry,
    token_metadata s !! token_id = Some entry -> tm_token_id entry = token_id.

(** A [balance_of] call asking for token 0 on behalf of both parties. *)
Definition scenario_balance_of : balance_of_params :=
  {| callback := "KT1TezoooozzSmartPyzzSTATiCzzzwwBFA1";
     requests := [ {| req_owner := tanoy; req_token_id := 0 |};
                   {| req_owner := abby; req_token_id := 0 |} ] |}.

(** The failures each entry point has a [sp.verify], [sp.failwith], map
    read or [open_some] for, under the shipped policy. *)
Definition possible_errors (ep : entry_point) : list error :=
  match ep with
  | Transfer _ => [FA2_TOKEN_UNDEFINED; FA2_NOT_OPERATOR; FA2_INSUFFICIENT_BALANCE]
  | Update_operators _ => [FA2_NOT_OWNER]
  | Balance_of _ => [FA2_TOKEN_UNDEFINED]
  | Mint _ _ => [FA2_NOT_ADMIN]
  | Update_usage _ => [GET_ITEM_MISSING_KEY; OPEN_SOME_NONE]
  | Set_administrator _ => [FA2_NOT_ADMIN]
  | Set_metadata _ => [FA2_NOT_ADMIN]
  end.

(* ================================================================== *)
(** * Properties *)

#[local] Ltac Zify.zify_post_hook ::= Z.to_euclidean_division_equations.

(** ** The Michelson serialization round-trips *)

Lemma zarith_tail_eq n :
  zarith_tail n =
  if decide (n < 128)%N then [n] else (128 + n mod 128)%N :: zarith_tail (n / 128)%N.
Proof.
  rewrite zarith_tail_equation_1.
  destruct (decide (n < 128)%N); [reflexivity | apply zarith_tail_clause_1_equation_2].
Qed.

Lemma unzarith_tail_zarith_tail n : unzarith_tail (zarith_tail n) = Some n.
Proof.
  induction (N.lt_wf_0 n) as [n _ IH].
  rewrite zarith_tail_eq. destruct (decide (n < 128)%N) as [Hn|Hn].
  - simpl. by rewrite decide_True.
  - cbn [unzarith_tail]. rewrite decide_False by lia.
    rewrite IH by (apply N.div_lt; lia). simpl. f_equal. lia.
Qed.

Lemma zarith_tail_bound n : Forall (λ b, b < 256)%N (zarith_tail n).
Proof.
  induction (N.lt_wf_0 n) as [n _ IH].
  rewrite zarith_tail_eq. destruct (decide (n < 128)%N) as [Hn|Hn].
  - constructor; [lia | constructor].
  - constructor; [lia | apply IH, N.div_lt; lia].
Qed.

Lemma unzarith_zarith z : unzarith (zarith z) = Some z.
Proof.
  unfold zarith. destruct (decide (Z.abs_N z < 64)%N) as [Hs|Hs]; simpl.
  - destruct (decide (z < 0)%Z).
    + rewrite decide_True by lia. simpl. rewrite decide_True by lia. f_equal. lia.
    + rewrite decide_True by lia. simpl. rewrite decide_False by lia. f_equal. lia.
  - destruct (decide (z < 0)%Z).
    + rewrite decide_False by lia. rewrite unzarith_tail_zarith_tail. simpl.
      rewrite decide_True by lia. f_equal. lia.
    + rewrite decide_False by lia. rewrite unzarith_tail_zarith_tail. simpl.
      rewrite decide_False by lia. f_equal. lia.
Qed.

Lemma zarith_bound z : Forall (λ b, b < 256)%N (zarith z).
Proof.
  unfold zarith. destruct (decide (z < 0)%Z), (decide (Z.abs_N z < 64)%N);
    (constructor; [lia | try constructor; try apply zarith_tail_bound]).
Qed.

Lemma to_N_byte_of_N n : (n < 256)%N → Byte.to_N (byte_of_N n) = n.
Proof.
  intros Hn. unfold byte_of_N.
  destruct (Byte.of_N n) as [b|] eqn:E.
  - simpl. by apply Byte.to_of_N.
  - apply Byte.of_N_None_iff in E. lia.
Qed.

Lemma to_N_byte_of_N_list (l : list N) :
  Forall (λ b, b < 256)%N l → map Byte.to_N (map byte_of_N l) = l.
Proof.
  induction 1 as [|b l Hb _ IH]; simpl; [done|].
  by rewrite to_N_byte_of_N, IH.
Qed.

Lemma michelson_unpack_pack z : michelson_unpack (michelson_pack z) = Some z.
Proof.
  unfold michelson_pack, michelson_unpack.
  rewrite to_N_byte_of_N_list by apply zarith_bound.
  apply unzarith_zarith.
Qed.

#[global] Instance michelson_codec : Codec :=
  {| pack := michelson_pack;
     unpack := michelson_unpack;
     unpack_pack := michelson_unpack_pack |}.

Example pack_0 : michelson_pack 0 = [x05; x00; x00].
Proof. reflexivity. Qed.

Example pack_100 : michelson_pack 100 = [x05; x00; xa4; x01].
Proof. reflexivity. Qed.

Example pack_minus_1 : michelson_pack (-1) = [x05; x00; x41].
Proof. reflexivity. Qed.

(** ** The scenario, replayed *)

Example scenario_mint :
  (s ← run_scenario 1; ledger s !! 0) = Some tanoy.
Proof. vm_compute. reflexivity. Qed.

Example scenario_transfer_ok :
  (s ← run_scenario 2; ledger s !! 0) = Some abby.
Proof. vm_compute. reflexivity. Qed.

Example scenario_transfer_again :
  (s ← run_scenario 2;
   Some (transfer OwnerOrOperatorTransfer.init_policy tanoy scenario_transfer s))
  = Some (Err FA2_INSUFFICIENT_BALANCE).
Proof. vm_compute. reflexivity. Qed.

Example scenario_check_owner :
  (s ← run_scenario 3; Some (get_owner s 0)) = Some (Ok abby).
Proof. vm_compute. reflexivity. Qed.

Example scenario_check_usage :
  (s ← run_scenario 4; Some (get_usage s 0)) = Some (Ok 1%Z).
Proof. vm_compute. reflexivity. Qed.

(** ** Results, loops and the host *)

Lemma bind_Ok {A B} (r : result A) (k : A -> result B) (b : B) :
  bind r k = Ok b <-> exists a, r = Ok a /\ k a = Ok b.
Proof.
  destruct r as [a|e]; simpl; split.
  - eauto.
  - by intros (a' & [= ->] & ?).
  - discriminate.
  - by intros (? & ? & ?).
Qed.

Lemma verify_Ok (cond : bool) (message : error) :
  verify cond message = Ok tt <-> cond = true.
Proof. by destruct cond. Qed.

Lemma verify_Err (cond : bool) (message e : error) :
  verify cond message = Err e <-> cond = false /\ e = message.
Proof.
  destruct cond; simpl; split.
  - discriminate.
  - by intros [? _].
  - by intros [= ->].
  - by intros [_ ->].
Qed.

Lemma contains_true `{Countable K} {V} (m : gmap K V) (k : K) :
  contains m k = true <-> is_Some (m !! k).
Proof. unfold contains. apply bool_decide_eq_true. Qed.

Lemma contains_false `{Countable K} {V} (m : gmap K V) (k : K) :
  contains m k = false <-> m !! k = None.
Proof.
  unfold contains. rewrite bool_decide_eq_false. symmetry. apply eq_None_not_Some.
Qed.

Lemma for__app {A S} (l1 l2 : list A) (body : A -> S -> result S) (s : S) :
  for_ (l1 ++ l2) body s = (s' <- for_ l1 body s ;; for_ l2 body s').
Proof.
  revert s. induction l1 as [|x l1 IH]; intros s; simpl; [done|].
  destruct (body x s); simpl; [apply IH | done].
Qed.

Lemma for__map {A B S} (f : A -> B) (l : list A) (body : B -> S -> result S) (s : S) :
  for_ (map f l) body s = for_ l (fun x => body (f x)) s.
Proof.
  revert s. induction l as [|x l IH]; intros s; simpl; [done|].
  destruct (body (f x) s); simpl; [apply IH | done].
Qed.

(** A loop stops at its first failing iteration with that failure. *)
Lemma for__first_failure {A S} (pre post : list A) (x : A)
    (body : A -> S -> result S) (s s' : S) (e : error) :
  for_ pre body s = Ok s' -> body x s' = Err e ->
  for_ (pre ++ x :: post) body s = Err e.
Proof. intros Hpre Hx. rewrite for__app, Hpre. simpl. by rewrite Hx. Qed.

(** A loop either completes or has a first failing iteration. *)
Lemma for__dichotomy {A S} (l : list A) (body : A -> S -> result S) (s : S) :
  (exists s', for_ l body s = Ok s')
  \/ (exists pre x post s' e,
         l = pre ++ x :: post /\ for_ pre body s = Ok s' /\ body x s' = Err e).
Proof.
  revert s. induction l as [|x l IH]; intros s; simpl; [by eauto|].
  destruct (body x s) as [s1|e] eqn:Hx; simpl.
  - destruct (IH s1) as [[s' Hs'] | (pre & y & post & s' & e & -> & Hpre & Hy)].
    + eauto.
    + right. exists (x :: pre), y, post, s', e. simpl. by rewrite Hx.
  - right. by exists [], x, l, s, e.
Qed.

(** An iteration that fails in every state the loop can be in makes the
    loop fail. *)
Lemma for__fails {A S} (P : S -> Prop) (l : list A) (x : A)
    (body : A -> S -> result S) (s : S) :
  (forall y s1 s2, P s1 -> body y s1 = Ok s2 -> P s2) ->
  (forall s1, P s1 -> exists e, body x s1 = Err e) ->
  In x l -> P s -> exists e, for_ l body s = Err e.
Proof.
  intros Hstep Hx. revert s. induction l as [|y l IH]; intros s Hin Hs; [done|].
  simpl. destruct (body y s) as [s1|e] eqn:Hy; simpl; [|by eauto].
  destruct Hin as [->|Hin].
  - destruct (Hx s Hs) as [e He]. congruence.
  - eapply IH; eauto.
Qed.

Lemma call_Err (entry_point : storage -> result storage) (s : storage) (e : error) :
  entry_point s = Err e -> call entry_point s = (s, Some e).
Proof. unfold call. by intros ->. Qed.

Lemma call_Ok (entry_point : storage -> result storage) (s s' : storage) :
  entry_point s = Ok s' -> call entry_point s = (s', None).
Proof. unfold call. by intros ->. Qed.

Lemma set_ledger_id (s : storage) : set_ledger (ledger s) s = s.
Proof. by destruct s. Qed.

(** ** The transfer loop *)

Section transfer_loop.
Variable p : policy.
Variable sender : address.

(** The nested loops of [transfer] visit the legs of the batch in order. *)
Lemma transfer_run_legs (batch : list transfer_batch) (s : storage) :
  supports_transfer p = true ->
  transfer p sender batch s = run_legs p sender (legs batch) s.
Proof.
  intros Hp. unfold transfer, run_legs. rewrite Hp. revert s.
  induction batch as [|t batch IH]; intros s; simpl; [done|].
  rewrite for__app, for__map. simpl.
  destruct (for_ (txs t) _ s); simpl; [apply IH | done].
Qed.

(** A leg that succeeds changes nothing but the ledger, as [apply_leg]. *)
Lemma transfer_leg_Ok (from_ : address) (tx : tx_record) (s s' : storage) :
  transfer_leg p sender from_ tx s = Ok s' ->
  s' = set_ledger (apply_leg (ledger s) (from_, tx)) s.
Proof.
  unfold transfer_leg, apply_leg. simpl.
  intros ([] & _ & ([] & _ & H)%bind_Ok)%bind_Ok.
  destruct (bool_decide (0 < tx_amount tx)).
  - unfold transfer_tx_ in H.
    apply bind_Ok in H as (c & _ & ([] & _ & [= <-])%bind_Ok). done.
  - injection H as <-. by rewrite set_ledger_id.
Qed.

Lemma run_legs_Ok (l : list (address * tx_record)) (s s' : storage) :
  run_legs p sender l s = Ok s' ->
  s' = set_ledger (foldl apply_leg (ledger s) l) s.
Proof.
  unfold run_legs. revert s. induction l as [|[f tx] l IH]; intros s; simpl.
  - intros [= <-]. by rewrite set_ledger_id.
  - intros (s1 & H1 & H2)%bind_Ok. apply transfer_leg_Ok in H1 as ->.
    apply IH in H2 as ->. done.
Qed.

End transfer_loop.

(** ** The shipped policy *)

Local Abbreviation pol := OwnerOrOperatorTransfer.init_policy.

Lemma check_tx_transfer_permissions_Ok (s : storage) (sender from_ to_ : address)
    (token_id : nat) :
  check_tx_transfer_permissions pol s sender from_ to_ token_id = Ok tt
  <-> authorized s sender from_ token_id.
Proof.
  simpl. unfold OwnerOrOperatorTransfer.check_tx_transfer_permissions, authorized.
  rewrite verify_Ok, orb_true_iff, bool_decide_eq_true, contains_true. done.
Qed.

Lemma check_tx_transfer_permissions_Err (s : storage) (sender from_ to_ : address)
    (token_id : nat) :
  ~ authorized s sender from_ token_id ->
  check_tx_transfer_permissions pol s sender from_ to_ token_id = Err FA2_NOT_OPERATOR.
Proof.
  intros Hna.
  destruct (check_tx_transfer_permissions pol s sender from_ to_ token_id)
    as [[]|e] eqn:E.
  - by apply check_tx_transfer_permissions_Ok in E.
  - simpl in E. by apply verify_Err in E as [_ ->].
Qed.

Lemma transfer_leg_undefined (sender from_ : address) (tx : tx_record) (s : storage) :
  is_defined s (tx_token_id tx) = false ->
  transfer_leg pol sender from_ tx s = Err FA2_TOKEN_UNDEFINED.
Proof. intros H. unfold transfer_leg. by rewrite H. Qed.

Lemma transfer_leg_not_operator (sender from_ : address) (tx : tx_record) (s : storage) :
  is_defined s (tx_token_id tx) = true ->
  ~ authorized s sender from_ (tx_token_id tx) ->
  transfer_leg pol sender from_ tx s = Err FA2_NOT_OPERATOR.
Proof.
  intros Hd Hna. unfold transfer_leg. rewrite Hd.
  by rewrite check_tx_transfer_permissions_Err.
Qed.

Lemma transfer_leg_authorized (sender from_ : address) (tx : tx_record) (s : storage) :
  is_defined s (tx_token_id tx) = true ->
  authorized s sender from_ (tx_token_id tx) ->
  transfer_leg pol sender from_ tx s =
  if bool_decide (0 < tx_amount tx) then transfer_tx_ from_ tx s else Ok s.
Proof.
  intros Hd Ha. unfold transfer_leg. rewrite Hd.
  apply (check_tx_transfer_permissions_Ok s sender from_ (tx_to_ tx)) in Ha.
  by rewrite Ha.
Qed.

(** The failure of the first failing leg is the failure of the call, and
    the host keeps the storage the call started from. *)
Lemma transfer_first_failure (sender : address) (batch : list transfer_batch)
    (pre post : list (address * tx_record)) (leg : address * tx_record)
    (s0 s : storage) (e : error) :
  legs batch = pre ++ leg :: post ->
  run_legs pol sender pre s0 = Ok s ->
  transfer_leg pol sender leg.1 leg.2 s = Err e ->
  transfer pol sender batch s0 = Err e
  /\ call (transfer pol sender batch) s0 = (s0, Some e).
Proof.
  intros Hl Hpre Hleg.
  assert (transfer pol sender batch s0 = Err e) as H.
  { rewrite transfer_run_legs by done. unfold run_legs. rewrite Hl.
    eapply for__first_failure; eauto. }
  split; [done | by apply call_Err].
Qed.

Lemma run_legs_authorized (sender : address) (l : list (address * tx_record))
    (s0 s : storage) (caller from_ : address) (token_id : nat) :
  run_legs pol sender l s0 = Ok s ->
  (authorized s caller from_ token_id <-> authorized s0 caller from_ token_id)
  /\ is_defined s token_id = is_defined s0 token_id.
Proof. intros ->%run_legs_Ok. done. Qed.

(** ** Claims about [transfer] *)

(** C1. The permission check of a leg succeeds exactly when the caller is
    the leg's [from_] or a registered operator of [from_] for the token.
    When neither holds for a leg on a defined token, the leg fails with
    FA2_NOT_OPERATOR; a call that reaches the leg fails with it; and any
    call whose batch holds such a leg fails and leaves the storage, the
    ledger included, as it was. *)
Theorem transfer_authorization_gate (sender from_ : address) (tx : tx_record)
    (s0 : storage) :
  (check_tx_transfer_permissions pol s0 sender from_ (tx_to_ tx) (tx_token_id tx) = Ok tt
   <-> sender = from_
       \/ is_Some (operators s0 !! {| op_owner := from_; op_operator := sender;
                                      op_token_id := tx_token_id tx |}))
  /\ (is_defined s0 (tx_token_id tx) = true ->
      ~ authorized s0 sender from_ (tx_token_id tx) ->
      transfer_leg pol sender from_ tx s0 = Err FA2_NOT_OPERATOR
      /\ (forall batch pre post s,
             legs batch = pre ++ (from_, tx) :: post ->
             run_legs pol sender pre s0 = Ok s ->
             transfer pol sender batch s0 = Err FA2_NOT_OPERATOR
             /\ call (transfer pol sender batch) s0 = (s0, Some FA2_NOT_OPERATOR))
      /\ (forall batch,
             In (from_, tx) (legs batch) ->
             exists e,
               transfer pol sender batch s0 = Err e
               /\ call (transfer pol sender batch) s0 = (s0, Some e)
               /\ ledger (call (transfer pol sender batch) s0).1 = ledger s0)).
Proof.
  split; [apply check_tx_transfer_permissions_Ok|].
  intros Hd Hna. split; [by apply transfer_leg_not_operator|]. split.
  - intros batch pre post s Hl Hpre.
    eapply transfer_first_failure; [done..|]. simpl.
    destruct (run_legs_authorized _ _ _ _ sender from_ (tx_token_id tx) Hpre) as [Ha Hd'].
    apply transfer_leg_not_operator; [congruence | by rewrite Ha].
  - intros batch Hin.
    destruct (for__fails
                (fun s => token_metadata s = token_metadata s0
                          /\ operators s = operators s0)
                (legs batch) (from_, tx)
                (fun leg => transfer_leg pol sender leg.1 leg.2) s0) as [e He]; try done.
    + by intros [f t] s1 s2 ? ->%transfer_leg_Ok.
    + intros s1 [Htm Hop]. exists FA2_NOT_OPERATOR. simpl.
      apply transfer_leg_not_operator.
      * unfold is_defined in *. by rewrite Htm.
      * unfold authorized in *. by rewrite Hop.
    + exists e.
      assert (transfer pol sender batch s0 = Err e) as Ht
        by by rewrite transfer_run_legs.
      by rewrite (call_Err _ _ _ Ht).
Qed.

Lemma transfer_authorization_gate_witness :
  is_defined minted 0 = true
  /\ ~ authorized minted abby tanoy 0
  /\ call (transfer pol abby scenario_transfer) minted = (minted, Some FA2_NOT_OPERATOR).
Proof.
  assert (is_defined minted 0 = true) as Hd by (vm_compute; reflexivity).
  assert (~ authorized minted abby tanoy 0) as Hna
    by (apply (bool_decide_unpack _); vm_compute; exact I).
  split; [exact Hd|]. split; [exact Hna|].
  destruct (transfer_authorization_gate abby tanoy
              {| tx_to_ := abby; tx_token_id := 0; tx_amount := 1 |} minted)
    as [_ H].
  destruct (H Hd Hna) as (_ & Hcall & _).
  apply (Hcall scenario_transfer [] [] minted); reflexivity.
Defined.

(** C2. [transfer] is all-or-nothing over its batch.  When a leg fails
    after the legs before it succeeded, the call fails with that leg's
    failure and the storage after the call is the storage before it.  When
    every leg succeeds the call succeeds and the ledger is the one obtained
    by applying the legs in order.  One of the two always happens. *)
Theorem transfer_all_or_nothing (sender : address) (batch : list transfer_batch)
    (s0 : storage) :
  (forall pre leg post s e,
      legs batch = pre ++ leg :: post ->
      run_legs pol sender pre s0 = Ok s ->
      transfer_leg pol sender leg.1 leg.2 s = Err e ->
      call (transfer pol sender batch) s0 = (s0, Some e))
  /\ (forall s',
        run_legs pol sender (legs batch) s0 = Ok s' ->
        call (transfer pol sender batch) s0
        = (set_ledger (foldl apply_leg (ledger s0) (legs batch)) s0, None))
  /\ ((exists s', run_legs pol sender (legs batch) s0 = Ok s')
      \/ (exists pre leg post s e,
             legs batch = pre ++ leg :: post
             /\ run_legs pol sender pre s0 = Ok s
             /\ transfer_leg pol sender leg.1 leg.2 s = Err e)).
Proof.
  split; [|split].
  - intros pre leg post s e Hl Hpre Hleg.
    by eapply transfer_first_failure.
  - intros s' Hs'. apply call_Ok. rewrite transfer_run_legs by done.
    rewrite Hs'. f_equal. by eapply run_legs_Ok.
  - apply for__dichotomy.
Qed.

Lemma transfer_all_or_nothing_witness :
  run_legs pol tanoy [(tanoy, {| tx_to_ := abby; tx_token_id := 0; tx_amount := 1 |})] minted
  = Ok (set_ledger {[ 0 := abby ]} minted)
  /\ call (transfer pol tanoy twice_transfer) minted
     = (minted, Some FA2_INSUFFICIENT_BALANCE).
Proof.
  split; [vm_compute; reflexivity|].
  destruct (transfer_all_or_nothing tanoy twice_transfer minted) as (H & _ & _).
  apply (H [(tanoy, {| tx_to_ := abby; tx_token_id := 0; tx_amount := 1 |})]
           (tanoy, {| tx_to_ := abby; tx_token_id := 0; tx_amount := 1 |})
           [] (set_ledger {[ 0 := abby ]} minted)).
  - reflexivity.
  - vm_compute. reflexivity.
  - vm_compute. reflexivity.
Defined.

(** C3. A leg is checked for existence, then permission, then balance.  A
    leg on an undefined token fails with FA2_TOKEN_UNDEFINED whoever the
    caller is, authorized or not; a leg on a defined token with an
    unauthorized caller fails with FA2_NOT_OPERATOR whatever its amount and
    whoever owns the token.  A call that reaches such a leg fails with the
    same message. *)
Theorem transfer_check_order (sender from_ : address) (tx : tx_record)
    (batch : list transfer_batch) (pre post : list (address * tx_record))
    (s0 s : storage) :
  legs batch = pre ++ (from_, tx) :: post ->
  run_legs pol sender pre s0 = Ok s ->
  (is_defined s0 (tx_token_id tx) = false ->
   transfer_leg pol sender from_ tx s = Err FA2_TOKEN_UNDEFINED
   /\ transfer pol sender batch s0 = Err FA2_TOKEN_UNDEFINED
   /\ call (transfer pol sender batch) s0 = (s0, Some FA2_TOKEN_UNDEFINED))
  /\ (is_defined s0 (tx_token_id tx) = true ->
      ~ authorized s0 sender from_ (tx_token_id tx) ->
      transfer_leg pol sender from_ tx s = Err FA2_NOT_OPERATOR
      /\ transfer pol sender batch s0 = Err FA2_NOT_OPERATOR
      /\ call (transfer pol sender batch) s0 = (s0, Some FA2_NOT_OPERATOR)).
Proof.
  intros Hl Hpre.
  destruct (run_legs_authorized _ _ _ _ sender from_ (tx_token_id tx) Hpre) as [Ha Hd].
  split.
  - intros Hu.
    assert (transfer_leg pol sender from_ tx s = Err FA2_TOKEN_UNDEFINED) as Hleg
      by (apply transfer_leg_undefined; congruence).
    split; [done|]. by eapply transfer_first_failure.
  - intros Hdef Hna.
    assert (transfer_leg pol sender from_ tx s = Err FA2_NOT_OPERATOR) as Hleg
      by (apply transfer_leg_not_operator; [congruence | by rewrite Ha]).
    split; [done|]. by eapply transfer_first_failure.
Qed.

Lemma transfer_check_order_witness :
  is_defined minted 7 = false
  /\ ~ authorized minted abby tanoy 7
  /\ call (transfer pol abby
             [ {| from_ := tanoy;
                  txs := [ {| tx_to_ := abby; tx_token_id := 7; tx_amount := 1 |} ] |} ])
          minted
     = (minted, Some FA2_TOKEN_UNDEFINED).
Proof.
  split; [vm_compute; reflexivity|].
  split; [apply (bool_decide_unpack _); vm_compute; exact I|].
  refine (proj2 (proj2 (proj1
    (transfer_check_order abby tanoy
       {| tx_to_ := abby; tx_token_id := 7; tx_amount := 1 |}
       [ {| from_ := tanoy;
            txs := [ {| tx_to_ := abby; tx_token_id := 7; tx_amount := 1 |} ] |} ]
       [] [] minted minted _ _) _))); reflexivity.
Defined.




(** ** Invariants of the storage *)

Lemma for__invariant {A S} (P : S -> Prop) (l : list A)
    (body : A -> S -> result S) (s s' : S) :
  (forall x s1 s2, In x l -> P s1 -> body x s1 = Ok s2 -> P s2) ->
  P s -> for_ l body s = Ok s' -> P s'.
Proof.
  revert s. induction l as [|x l IH]; intros s Hstep Hs; simpl.
  - by intros [= <-].
  - intros (s1 & H1 & H2)%bind_Ok. eapply (IH s1); [|by eapply Hstep; eauto; left|done].
    intros y s2 s3 Hy. eapply Hstep. by right.
Qed.

Lemma is_defined_lt (s : storage) (token_id : nat) :
  token_ids_inv s -> is_defined s token_id = true -> token_id < last_token_id s.
Proof. intros [_ Hd]. apply Hd. Qed.

Lemma token_ids_inv_fresh (s : storage) :
  token_ids_inv s ->
  token_metadata s !! last_token_id s = None /\ ledger s !! last_token_id s = None.
Proof.
  intros [Hlt _]. split; apply eq_None_not_Some; intros Hs.
  - specialize (Hlt (last_token_id s) (or_introl Hs)). lia.
  - specialize (Hlt (last_token_id s) (or_intror Hs)). lia.
Qed.

Lemma token_ids_inv_size (s : storage) :
  token_ids_inv s -> size (token_metadata s) = last_token_id s.
Proof.
  intros [_ Hd].
  assert (dom (token_metadata s) = set_seq (C := gset nat) 0 (last_token_id s)) as Hdom.
  { apply set_eq. intros i. rewrite elem_of_dom, elem_of_set_seq.
    unfold is_defined in Hd. rewrite <- contains_true, Hd. lia. }
  rewrite <- size_dom, Hdom. apply size_set_seq.
Qed.

Section invariants.
Context `{Codec}.
Variable p : policy.
Variable sender : address.

Lemma transfer_leg_defined (from_ : address) (tx : tx_record) (s s' : storage) :
  transfer_leg p sender from_ tx s = Ok s' -> is_defined s (tx_token_id tx) = true.
Proof.
  unfold transfer_leg. intros ([] & Hv & _)%bind_Ok. by apply verify_Ok in Hv.
Qed.

Lemma transfer_leg_token_ids_inv (from_ : address) (tx : tx_record) (s s' : storage) :
  token_ids_inv s -> transfer_leg p sender from_ tx s = Ok s' -> token_ids_inv s'.
Proof.
  intros Hinv Hleg. pose proof (transfer_leg_defined _ _ _ _ Hleg) as Hd.
  apply transfer_leg_Ok in Hleg as ->.
  destruct Hinv as [Hlt Hdef]. split; [|done].
  intros token_id. simpl. unfold apply_leg. simpl.
  destruct (bool_decide (0 < tx_amount tx)); [|apply Hlt].
  intros [Hs|Hs]; [by apply Hlt; left|].
  destruct (decide (token_id = tx_token_id tx)) as [->|Hne].
  - by apply Hdef.
  - rewrite lookup_insert_ne in Hs by done. by apply Hlt; right.
Qed.

Lemma transfer_leg_owned_inv (from_ : address) (tx : tx_record) (s s' : storage) :
  owned_inv s -> transfer_leg p sender from_ tx s = Ok s' -> owned_inv s'.
Proof.
  intros Hinv ->%transfer_leg_Ok token_id Hd. specialize (Hinv token_id Hd).
  simpl. unfold apply_leg. simpl.
  destruct (bool_decide (0 < tx_amount tx)); [|done].
  destruct (decide (tx_token_id tx = token_id)) as [->|Hne].
  - rewrite lookup_insert_eq. eauto.
  - by rewrite lookup_insert_ne.
Qed.

Lemma transfer_inv (P : storage -> Prop) (batch : list transfer_batch) (s s' : storage) :
  (forall from_ tx s1 s2, P s1 -> transfer_leg p sender from_ tx s1 = Ok s2 -> P s2) ->
  P s -> transfer p sender batch s = Ok s' -> P s'.
Proof.
  intros Hleg Hs. unfold transfer. destruct (supports_transfer p); [|done].
  apply for__invariant; [|done].
  intros t s1 s2 _ Hs1. apply for__invariant; [|done]. intros tx s3 s4 _. apply Hleg.
Qed.

Lemma update_operators_action_Ok (action : operator_action) (s s' : storage) :
  update_operators_action p sender action s = Ok s' ->
  s' = set_operators (apply_action (operators s) action) s.
Proof.
  unfold update_operators_action.
  destruct action; intros ([] & _ & [= <-])%bind_Ok; done.
Qed.

Lemma update_operators_inv (P : storage -> Prop) (batch : list operator_action)
    (s s' : storage) :
  (forall o s1, P s1 -> P (set_operators o s1)) ->
  P s -> update_operators p sender batch s = Ok s' -> P s'.
Proof.
  intros Hset Hs. unfold update_operators. destruct (supports_operator p); [|done].
  apply for__invariant; [|done].
  intros action s1 s2 _ Hs1 ->%update_operators_action_Ok. by apply Hset.
Qed.

Lemma mint_Ok (owner : address) (token_info : gmap string bytes) (s s' : storage) :
  mint sender owner token_info s = Ok s' ->
  sender = administrator s
  /\ s' = {| ledger := <[last_token_id s := owner]> (ledger s);
            metadata := metadata s;
            last_token_id := last_token_id s + 1;
            token_metadata :=
              <[last_token_id s := {| tm_token_id := last_token_id s;
                                      tm_token_info := token_info |}]>
                (token_metadata s);
            operators := operators s;
            administrator := administrator s |}.
Proof.
  unfold mint. intros ([] & Hv%verify_Ok & [= <-])%bind_Ok.
  split; [|done]. by apply bool_decide_eq_true in Hv.
Qed.

Lemma mint_token_ids_inv (owner : address) (token_info : gmap string bytes)
    (s s' : storage) :
  token_ids_inv s -> mint sender owner token_info s = Ok s' -> token_ids_inv s'.
Proof.
  intros [Hlt Hdef] [_ ->]%mint_Ok. split; intros token_id; simpl.
  - rewrite !lookup_insert_is_Some. intros [[?|[_ Hs]]|[?|[_ Hs]]]; try lia.
    + specialize (Hlt token_id (or_introl Hs)). lia.
    + specialize (Hlt token_id (or_intror Hs)). lia.
  - unfold is_defined in *. rewrite contains_true. simpl.
    rewrite lookup_insert_is_Some. specialize (Hdef token_id).
    rewrite contains_true in Hdef.
    destruct (decide (last_token_id s = token_id)); [intuition lia|].
    split; [intros [?|[_ Hs]]; [done|apply Hdef in Hs; lia]|].
    intros Hl. right. split; [done|]. apply Hdef. lia.
Qed.

Lemma mint_owned_inv (owner : address) (token_info : gmap string bytes)
    (s s' : storage) :
  owned_inv s -> mint sender owner token_info s = Ok s' -> owned_inv s'.
Proof.
  intros Hinv [_ ->]%mint_Ok token_id. unfold is_defined. rewrite contains_true. simpl.
  rewrite !lookup_insert_is_Some. intros [?|[Hne Hs]]; [by left|].
  right. split; [done|]. apply Hinv. unfold is_defined. by rewrite contains_true.
Qed.

Lemma update_usage_Ok (token_id : nat) (s s' : storage) :
  update_usage sender token_id s = Ok s' ->
  exists entry packed usage,
    token_metadata s !! token_id = Some entry
    /\ tm_token_info entry !! "usage" = Some packed
    /\ unpack packed = Some usage
    /\ s' = set_token_metadata
              (<[token_id := {| tm_token_id := tm_token_id entry;
                                tm_token_info :=
                                  <["usage" := pack (usage + 1)]> (tm_token_info entry) |}]>
                 (token_metadata s)) s.
Proof.
  unfold update_usage, get_item, open_some.
  destruct (token_metadata s !! token_id) as [entry|] eqn:He; [|done]. simpl.
  destruct (tm_token_info entry !! "usage") as [packed|] eqn:Hp; [|done]. simpl.
  destruct (unpack packed) as [usage|] eqn:Hu; [|done]. simpl.
  intros [= <-]. by exists entry, packed, usage.
Qed.

Lemma update_usage_is_defined (token_id : nat) (s s' : storage) (t : nat) :
  update_usage sender token_id s = Ok s' -> is_defined s' t = is_defined s t.
Proof.
  intros (entry & packed & usage & He & _ & _ & ->)%update_usage_Ok.
  unfold is_defined, contains. simpl. apply bool_decide_ext.
  rewrite lookup_insert_is_Some. destruct (decide (token_id = t)) as [->|]; [|tauto].
  rewrite He. split; eauto.
Qed.

Lemma update_usage_frame (token_id : nat) (s s' : storage) :
  update_usage sender token_id s = Ok s' ->
  ledger s' = ledger s /\ last_token_id s' = last_token_id s.
Proof. by intros (? & ? & ? & _ & _ & _ & ->)%update_usage_Ok. Qed.

Lemma update_usage_token_ids_inv (token_id : nat) (s s' : storage) :
  token_ids_inv s -> update_usage sender token_id s = Ok s' -> token_ids_inv s'.
Proof.
  intros [Hlt Hdef] Hu. destruct (update_usage_frame _ _ _ Hu) as [Hl Hn].
  split; intros t; rewrite Hn.
  - rewrite Hl. intros [Hs|Hs]; [|by apply Hlt; right].
    apply Hdef. rewrite <- (update_usage_is_defined _ _ _ t Hu).
    unfold is_defined. by rewrite contains_true.
  - rewrite (update_usage_is_defined _ _ _ t Hu). apply Hdef.
Qed.

Lemma update_usage_owned_inv (token_id : nat) (s s' : storage) :
  owned_inv s -> update_usage sender token_id s = Ok s' -> owned_inv s'.
Proof.
  intros Hinv Hu t. destruct (update_usage_frame _ _ _ Hu) as [-> _].
  rewrite (update_usage_is_defined _ _ _ t Hu). apply Hinv.
Qed.

Lemma dispatch_token_ids_inv (ep : entry_point) (s s' : storage) :
  token_ids_inv s -> dispatch p sender ep s = Ok s' -> token_ids_inv s'.
Proof.
  intros Hinv. destruct ep; simpl.
  - apply transfer_inv; [|done]. intros ????. apply transfer_leg_token_ids_inv.
  - apply update_operators_inv; done.
  - unfold balance_of. by intros (r & (? & _ & [= <-])%bind_Ok & [= <-])%bind_Ok.
  - by apply mint_token_ids_inv.
  - by apply update_usage_token_ids_inv.
  - unfold set_administrator. by intros ([] & _ & [= <-])%bind_Ok.
  - unfold set_metadata. by intros ([] & _ & [= <-])%bind_Ok.
Qed.

Lemma dispatch_owned_inv (ep : entry_point) (s s' : storage) :
  owned_inv s -> dispatch p sender ep s = Ok s' -> owned_inv s'.
Proof.
  intros Hinv. destruct ep; simpl.
  - apply transfer_inv; [|done]. intros ????. apply transfer_leg_owned_inv.
  - apply update_operators_inv; done.
  - unfold balance_of. by intros (r & (? & _ & [= <-])%bind_Ok & [= <-])%bind_Ok.
  - by apply mint_owned_inv.
  - by apply update_usage_owned_inv.
  - unfold set_administrator. by intros ([] & _ & [= <-])%bind_Ok.
  - unfold set_metadata. by intros ([] & _ & [= <-])%bind_Ok.
Qed.

Lemma call_inv (P : storage -> Prop) (ep : entry_point) (s : storage) :
  (forall s', P s -> dispatch p sender ep s = Ok s' -> P s') ->
  P s -> P (call (dispatch p sender ep) s).1.
Proof.
  intros Hstep Hs. unfold call.
  destruct (dispatch p sender ep s) as [s'|e] eqn:E; simpl; [by apply Hstep | done].
Qed.

End invariants.

(** The invariant holds at origination, whatever [token_metadata] and
    [ledger] the constructor is given, and so in every reachable storage. *)
Lemma Nft_init_token_ids_inv (admin : address) (metadata : gmap string bytes)
    (token_metadata : list (gmap string bytes)) (ledger : gmap nat address)
    (s : storage) :
  Nft_init admin metadata token_metadata ledger = Some s -> token_ids_inv s.
Proof.
  unfold Nft_init, initial_mint.
  set (d := map_imap _ _).
  assert (forall i, is_Some (d !! i) <-> i < length token_metadata) as Hd.
  { intros i. unfold d. rewrite map_lookup_imap, lookup_map_seq_0.
    rewrite <- lookup_lt_is_Some.
    destruct (token_metadata !! i); simpl; split; intros [? ?]; by eauto. }
  destruct (decide (map_Forall _ ledger)) as [Hl|]; [|done].
  intros [= <-]. split; intros i; simpl.
  - intros [Hs|[a Ha]]; [by apply Hd|]. apply Hd. by apply (Hl i a).
  - unfold is_defined. rewrite contains_true. simpl. apply Hd.
Qed.

Lemma reachable_token_ids_inv `{Codec} (p : policy) (s0 s : storage) :
  token_ids_inv s0 -> reachable p s0 s -> token_ids_inv s.
Proof.
  intros H0. induction 1 as [|s sender ep _ IH]; [done|].
  apply call_inv; [|done]. intros s' _. by apply dispatch_token_ids_inv.
Qed.

Lemma reachable_owned_inv `{Codec} (p : policy) (s0 s : storage) :
  owned_inv s0 -> reachable p s0 s -> owned_inv s.
Proof.
  intros H0. induction 1 as [|s sender ep _ IH]; [done|].
  apply call_inv; [|done]. intros s' _. by apply dispatch_owned_inv.
Qed.

(** Originated without tokens, the contract only ever defines tokens that
    have an owner. *)
Lemma Nft_init_owned_inv (admin : address) (metadata : gmap string bytes)
    (ledger : gmap nat address) (s : storage) :
  Nft_init admin metadata [] ledger = Some s -> owned_inv s.
Proof.
  intros Hi token_id Hd.
  apply (is_defined_lt _ _ (Nft_init_token_ids_inv _ _ _ _ _ Hi)) in Hd.
  unfold Nft_init in Hi. destruct (initial_mint [] ledger) as [[l d]|]; [|done].
  injection Hi as <-. simpl in Hd. lia.
Qed.

Lemma scenario_reachable_owned `{Codec} (p : policy) (s0 s : storage) :
  nft_pirata = Some s0 -> reachable p s0 s -> owned_inv s.
Proof.
  intros H0. apply reachable_owned_inv. by eapply Nft_init_owned_inv.
Qed.

(** ** Claims about [mint] and token ids *)

(** C5. [mint] called by anyone but the administrator fails with
    FA2_NOT_ADMIN and the storage stays as it was.  Called by the
    administrator it succeeds: the new token gets the id [last_token_id],
    the ledger records the given owner for it, [token_metadata] records the
    given [token_info] under it, [last_token_id] grows by exactly 1 and
    nothing else changes.  Under the id invariant [last_token_id] is the
    number of registered tokens. *)
Theorem mint_spec (sender owner : address) (token_info : gmap string bytes)
    (s : storage) :
  (sender <> administrator s ->
   mint sender owner token_info s = Err FA2_NOT_ADMIN
   /\ call (mint sender owner token_info) s = (s, Some FA2_NOT_ADMIN))
  /\ (sender = administrator s ->
      exists s',
        mint sender owner token_info s = Ok s'
        /\ call (mint sender owner token_info) s = (s', None)
        /\ ledger s' = <[last_token_id s := owner]> (ledger s)
        /\ token_metadata s'
           = <[last_token_id s := {| tm_token_id := last_token_id s;
                                     tm_token_info := token_info |}]> (token_metadata s)
        /\ last_token_id s' = last_token_id s + 1
        /\ metadata s' = metadata s
        /\ operators s' = operators s
        /\ administrator s' = administrator s
        /\ get_owner s' (last_token_id s) = Ok owner)
  /\ (token_ids_inv s -> last_token_id s = size (token_metadata s)).
Proof.
  split; [|split].
  - intros Hna.
    assert (mint sender owner token_info s = Err FA2_NOT_ADMIN) as Hm.
    { unfold mint, is_administrator. by rewrite bool_decide_eq_false_2. }
    split; [done | by apply call_Err].
  - intros Ha. eexists. split; [|split; [apply call_Ok|]].
    + unfold mint, is_administrator. rewrite bool_decide_eq_true_2 by done.
      simpl. reflexivity.
    + unfold mint, is_administrator. rewrite bool_decide_eq_true_2 by done.
      simpl. reflexivity.
    + simpl. repeat split. unfold get_owner, get_item. simpl.
      by rewrite lookup_insert_eq.
  - intros Hinv. symmetry. by apply token_ids_inv_size.
Qed.

Lemma mint_spec_witness :
  tanoy <> administrator minted
  /\ call (mint tanoy tanoy ∅) minted = (minted, Some FA2_NOT_ADMIN)
  /\ token_ids_inv minted
  /\ last_token_id minted = size (token_metadata minted).
Proof.
  assert (tanoy <> administrator minted) as Hna by (vm_compute; discriminate).
  assert (token_ids_inv minted) as Hinv.
  { apply (Nft_init_token_ids_inv abby ∅ [ {[ "usage" := [x05; x00; x00] ]} ] {[ 0 := tanoy ]}).
    vm_compute. reflexivity. }
  destruct (mint_spec tanoy tanoy ∅ minted) as (H1 & _ & H3).
  split; [exact Hna|]. split; [exact (proj2 (H1 Hna))|]. split; [exact Hinv|].
  exact (H3 Hinv).
Defined.

(** C6. Every entry point keeps the id invariant: an id that has metadata
    or an owner is below [last_token_id], and the defined ids are exactly
    the ids below [last_token_id], the ones [all_tokens] lists.  So the id
    [mint] assigns has neither metadata nor an owner before the call: no
    mint overwrites a registered token. *)
Theorem token_ids_invariant `{Codec} (p : policy) (sender : address)
    (ep : entry_point) (s : storage) :
  token_ids_inv s ->
  (forall s', dispatch p sender ep s = Ok s' -> token_ids_inv s')
  /\ token_ids_inv (call (dispatch p sender ep) s).1
  /\ (forall token_id, In token_id (all_tokens s) <-> is_defined s token_id = true)
  /\ is_defined s (last_token_id s) = false
  /\ ledger s !! last_token_id s = None
  /\ (forall owner token_info s',
        mint sender owner token_info s = Ok s' ->
        forall token_id,
          is_defined s' token_id = true
          <-> token_id = last_token_id s \/ is_defined s token_id = true).
Proof.
  intros Hinv. split; [|split; [|split; [|split; [|split]]]].
  - intros s'. by apply dispatch_token_ids_inv.
  - apply call_inv; [|done]. intros s' _. by apply dispatch_token_ids_inv.
  - intros token_id. unfold all_tokens. rewrite in_seq. destruct Hinv as [_ Hd].
    rewrite Hd. lia.
  - apply contains_false. by apply token_ids_inv_fresh.
  - by apply token_ids_inv_fresh.
  - intros owner token_info s' [_ ->]%mint_Ok token_id.
    unfold is_defined. rewrite !contains_true. simpl.
    rewrite lookup_insert_is_Some.
    destruct (decide (last_token_id s = token_id)) as [->|Hne]; [by intuition|].
    split; [intros [?|[_ ?]]; [congruence | by right] | intros [?|?]; [congruence|by right]].
Qed.

Lemma token_ids_invariant_witness :
  token_ids_inv minted
  /\ token_ids_inv
       (call (dispatch OwnerOrOperatorTransfer.init_policy abby (Mint abby ∅)) minted).1
  /\ is_defined minted 1 = false.
Proof.
  assert (token_ids_inv minted) as Hinv.
  { apply (Nft_init_token_ids_inv abby ∅ [ {[ "usage" := [x05; x00; x00] ]} ] {[ 0 := tanoy ]}).
    vm_compute. reflexivity. }
  destruct (token_ids_invariant OwnerOrOperatorTransfer.init_policy abby (Mint abby ∅)
              minted Hinv) as (_ & H2 & _ & H4 & _).
  split; [exact Hinv|]. split; [exact H2 | exact H4].
Defined.

(** ** Claims about operators *)

Lemma set_operators_id (s : storage) : set_operators (operators s) s = s.
Proof. by destruct s. Qed.

Lemma update_operators_action_eq (sender : address) (action : operator_action)
    (s : storage) :
  update_operators_action pol sender action s
  = if bool_decide (op_owner (action_permission action) = sender)
    then Ok (set_operators (apply_action (operators s) action) s)
    else Err FA2_NOT_OWNER.
Proof.
  destruct action as [perm|perm]; simpl;
    unfold OwnerOrOperatorTransfer.check_operator_update_permissions;
    by destruct (bool_decide (op_owner perm = sender)).
Qed.

Lemma update_operators_all_owner (sender : address) (batch : list operator_action)
    (s : storage) :
  Forall (fun action => op_owner (action_permission action) = sender) batch ->
  update_operators pol sender batch s
  = Ok (set_operators (foldl apply_action (operators s) batch) s).
Proof.
  unfold update_operators. simpl. revert s.
  induction batch as [|action batch IH]; intros s Hall; simpl.
  - by rewrite set_operators_id.
  - apply Forall_cons in Hall as [Ho Hall].
    rewrite update_operators_action_eq, bool_decide_eq_true_2 by done. simpl.
    by rewrite IH.
Qed.

Lemma update_operators_not_owner (sender : address) (batch : list operator_action)
    (s : storage) :
  Exists (fun action => op_owner (action_permission action) <> sender) batch ->
  update_operators pol sender batch s = Err FA2_NOT_OWNER.
Proof.
  unfold update_operators. simpl. revert s.
  induction batch as [|action batch IH]; intros s Hex; simpl.
  - by apply Exists_nil in Hex.
  - rewrite update_operators_action_eq.
    destruct (bool_decide_reflect (op_owner (action_permission action) = sender))
      as [Ho|Ho]; simpl; [|done].
    apply Exists_cons in Hex as [?|Hex]; [done|]. by apply IH.
Qed.



(** C8. Grants and revocations by the named owner never fail.  After a
    grant [is_operator] is true, and granting what is already granted
    leaves the storage as it is; after a revocation [is_operator] is false,
    revoking what is not granted leaves the storage as it is, and revoking
    twice gives the storage that revoking once gives. *)
Theorem operator_updates_idempotent (sender : address) (perm : operator_permission)
    (s : storage) :
  op_owner perm = sender ->
  (exists s',
      update_operators pol sender [add_operator perm] s = Ok s'
      /\ is_operator pol s' perm = true
      /\ (is_operator pol s perm = true -> s' = s)
      /\ update_operators pol sender [add_operator perm] s' = Ok s'
      /\ update_operators pol sender [add_operator perm; add_operator perm] s = Ok s')
  /\ (exists s',
        update_operators pol sender [remove_operator perm] s = Ok s'
        /\ is_operator pol s' perm = false
        /\ (is_operator pol s perm = false -> s' = s)
        /\ update_operators pol sender [remove_operator perm] s' = Ok s'
        /\ update_operators pol sender [remove_operator perm; remove_operator perm] s
           = Ok s').
Proof.
  intros Ho.
  assert (forall batch s1,
             Forall (fun action => action_permission action = perm) batch ->
             update_operators pol sender batch s1
             = Ok (set_operators (foldl apply_action (operators s1) batch) s1)) as Hall.
  { intros batch s1 Hb.
    apply update_operators_all_owner.
    eapply Forall_impl; [exact Hb|]. by intros a ->. }
  split.
  - exists (set_operators (<[perm := tt]> (operators s)) s).
    split; [by rewrite Hall by (repeat constructor)|].
    split; [|split; [|split]].
    + simpl. unfold OwnerOrOperatorTransfer.is_operator. apply contains_true. simpl.
      rewrite lookup_insert_eq. eauto.
    + simpl. unfold OwnerOrOperatorTransfer.is_operator. rewrite contains_true.
      intros [[] Hs]. rewrite insert_id by done. apply set_operators_id.
    + rewrite Hall by (repeat constructor). simpl. by rewrite insert_insert_eq.
    + rewrite Hall by (repeat constructor). simpl. by rewrite insert_insert_eq.
  - exists (set_operators (delete perm (operators s)) s).
    split; [by rewrite Hall by (repeat constructor)|].
    split; [|split; [|split]].
    + simpl. unfold OwnerOrOperatorTransfer.is_operator. apply contains_false. simpl.
      apply lookup_delete_eq.
    + simpl. unfold OwnerOrOperatorTransfer.is_operator. rewrite contains_false.
      intros Hn. rewrite delete_id by done. apply set_operators_id.
    + rewrite Hall by (repeat constructor). simpl. by rewrite delete_delete_eq.
    + rewrite Hall by (repeat constructor). simpl. by rewrite delete_delete_eq.
Qed.

Lemma operator_updates_idempotent_witness :
  update_operators pol tanoy
    [ remove_operator {| op_owner := tanoy; op_operator := abby; op_token_id := 0 |};
      remove_operator {| op_owner := tanoy; op_operator := abby; op_token_id := 0 |} ]
    minted
  = Ok minted.
Proof.
  destruct (operator_updates_idempotent tanoy
              {| op_owner := tanoy; op_operator := abby; op_token_id := 0 |} minted)
    as [_ (s' & _ & _ & Hid & _ & Htwice)]; [reflexivity|].
  rewrite Htwice. f_equal. apply Hid. vm_compute. reflexivity.
Defined.

(** ** Claims about the views *)

Example Nft_init_unowned : Nft_init abby ∅ [∅] ∅ = Some unowned.
Proof. vm_compute. reflexivity. Qed.




(** ** Claims about the usage counter *)

(** C10. [update_usage] reads nothing of the caller.  On a token whose
    [token_info] holds the packed integer [n] under "usage" it succeeds,
    and [get_usage] then returns [n + 1].  It fails on the map read, not
    with FA2_TOKEN_UNDEFINED, when the token has no [token_metadata] entry
    or its [token_info] has no "usage" key. *)
Theorem update_usage_spec `{Codec} (sender : address) (token_id : nat) (s : storage) :
  (forall entry n,
      token_metadata s !! token_id = Some entry ->
      tm_token_info entry !! "usage" = Some (pack n) ->
      get_usage s token_id = Ok n
      /\ exists s',
           update_usage sender token_id s = Ok s'
           /\ call (update_usage sender token_id) s = (s', None)
           /\ get_usage s' token_id = Ok (n + 1)%Z)
  /\ (token_metadata s !! token_id = None ->
      update_usage sender token_id s = Err GET_ITEM_MISSING_KEY)
  /\ (forall entry,
        token_metadata s !! token_id = Some entry ->
        tm_token_info entry !! "usage" = None ->
        update_usage sender token_id s = Err GET_ITEM_MISSING_KEY)
  /\ (forall sender', update_usage sender' token_id s = update_usage sender token_id s).
Proof.
  split; [|split; [|split]].
  - intros entry n He Hu.
    assert (get_usage s token_id = Ok n) as Hg.
    { unfold get_usage, get_item. rewrite He. simpl. rewrite Hu. simpl.
      by rewrite unpack_pack. }
    split; [done|].
    assert (update_usage sender token_id s
            = Ok (set_token_metadata
                    (<[token_id := {| tm_token_id := tm_token_id entry;
                                      tm_token_info :=
                                        <["usage" := pack (n + 1)]> (tm_token_info entry) |}]>
                       (token_metadata s)) s)) as Hup.
    { unfold update_usage, get_item. rewrite He. simpl. rewrite Hu. simpl.
      by rewrite unpack_pack. }
    eexists. split; [exact Hup|]. split; [by apply call_Ok|].
    unfold get_usage, get_item. simpl. rewrite lookup_insert_eq. simpl.
    rewrite lookup_insert_eq. simpl. by rewrite unpack_pack.
  - intros Hn. unfold update_usage, get_item. by rewrite Hn.
  - intros entry He Hn. unfold update_usage, get_item. rewrite He. simpl. by rewrite Hn.
  - done.
Qed.

Lemma update_usage_spec_witness :
  get_usage minted 0 = Ok 0%Z
  /\ get_usage (call (update_usage tanoy 0) minted).1 0 = Ok 1%Z
  /\ update_usage tanoy 7 minted = Err GET_ITEM_MISSING_KEY.
Proof.
  destruct (update_usage_spec tanoy 0 minted) as (H1 & _).
  destruct (H1 {| tm_token_id := 0; tm_token_info := {[ "usage" := [x05; x00; x00] ]} |} 0%Z)
    as (Hg & s' & _ & Hc & Hg'); [vm_compute; reflexivity..|].
  split; [exact Hg|]. split; [by rewrite Hc|].
  apply (proj1 (proj2 (update_usage_spec tanoy 7 minted))). vm_compute. reflexivity.
Defined.

(* ================================================================== *)
(** * Further properties of the contract *)

(** ** What a successful call leaves alone *)

Lemma transfer_Ok_set_ledger (p : policy) (sender : address)
    (batch : list transfer_batch) (s s' : storage) :
  transfer p sender batch s = Ok s' -> exists l, s' = set_ledger l s.
Proof.
  apply (transfer_inv p sender (fun s1 => exists l, s1 = set_ledger l s)).
  - intros from_ tx s1 s2 [l ->] ->%transfer_leg_Ok. by eexists.
  - exists (ledger s). by rewrite set_ledger_id.
Qed.

Lemma update_operators_Ok_set_operators (p : policy) (sender : address)
    (batch : list operator_action) (s s' : storage) :
  update_operators p sender batch s = Ok s' -> exists o, s' = set_operators o s.
Proof.
  apply (update_operators_inv p sender (fun s1 => exists o, s1 = set_operators o s)).
  - intros o s1 [o1 ->]. by eexists.
  - exists (operators s). by destruct s.
Qed.

Lemma balance_of_Ok (params : balance_of_params) (s s' : storage) (ops : list operation) :
  balance_of params s = Ok (s', ops) ->
  s' = s
  /\ exists responses,
       balance_of_batch s (requests params) = Ok responses
       /\ ops = [ {| op_destination := callback params; op_argument := responses |} ].
Proof.
  unfold balance_of. intros (r & Hr & [= <- <-])%bind_Ok. eauto.
Qed.

Lemma map_result_Ok {A B} (f : A -> result B) (l : list A) (ys : list B) :
  map_result f l = Ok ys -> Forall2 (fun x y => f x = Ok y) l ys.
Proof.
  revert ys. induction l as [|x l IH]; intros ys; simpl.
  - intros [= <-]. constructor.
  - intros (y & Hy & (ys' & Hys & [= <-])%bind_Ok)%bind_Ok.
    constructor; [done | by apply IH].
Qed.

Lemma minted_owned_inv : owned_inv minted.
Proof.
  intros token_id. unfold is_defined. rewrite contains_true. simpl.
  intros [e He]. destruct (decide (token_id = 0)) as [->|Hne]; [by eexists|].
  by rewrite lookup_singleton_ne in He.
Qed.

Lemma minted_token_ids_inv : token_ids_inv minted.
Proof.
  apply (Nft_init_token_ids_inv abby ∅ [ {[ "usage" := [x05; x00; x00] ]} ] {[ 0 := tanoy ]}).
  vm_compute. reflexivity.
Qed.

(** ** [balance_of] *)

(** X1. [balance_of] never changes the storage.  When it succeeds it emits
    exactly one operation, to the callback, carrying one response per
    request, in the order of the requests, each with the balance of its
    request.  Where every defined token has an owner it succeeds when all
    requested tokens are defined and fails with FA2_TOKEN_UNDEFINED when
    one is not. *)
Theorem balance_of_spec (params : balance_of_params) (s : storage) :
  (forall s' ops,
      balance_of params s = Ok (s', ops) ->
      s' = s
      /\ exists responses,
           ops = [ {| op_destination := callback params; op_argument := responses |} ]
           /\ map request responses = requests params
           /\ Forall (fun r => balance_ s (req_owner (request r)) (req_token_id (request r))
                               = Ok (balance r)) responses)
  /\ (owned_inv s ->
      (Forall (fun req => is_defined s (req_token_id req) = true) (requests params) ->
       exists ops, balance_of params s = Ok (s, ops))
      /\ (Exists (fun req => is_defined s (req_token_id req) = false) (requests params) ->
          balance_of params s = Err FA2_TOKEN_UNDEFINED)).
Proof.
  split.
  - intros s' ops (-> & responses & Hb & ->)%balance_of_Ok. split; [done|].
    exists responses. split; [done|].
    unfold balance_of_batch in Hb. apply map_result_Ok in Hb.
    induction Hb as [|req r reqs rs Hr _ [IH1 IH2]]; [by split; [|constructor]|].
    apply bind_Ok in Hr as (b & Hb' & [= <-]). simpl. split; [by f_equal|].
    constructor; [done|done].
  - intros Hown. unfold balance_of, balance_of_batch.
    induction (requests params) as [|req reqs IH]; [split; [by eauto | by intros ?%Exists_nil]|].
    destruct IH as [IHok IHerr]. simpl. unfold balance_ at 1 3.
    destruct (is_defined s (req_token_id req)) eqn:Hd; simpl.
    + destruct (Hown _ Hd) as [o Ho]. unfold get_item. rewrite Ho. simpl. split.
      * intros [_ Hall]%Forall_cons. destruct (IHok Hall) as [ops Hops].
        destruct (map_result _ reqs); simpl in *; [by eauto | done].
      * intros [?|Hex]%Exists_cons; [congruence|]. specialize (IHerr Hex).
        destruct (map_result _ reqs); simpl in *; [done | done].
    + split; [intros [? _]%Forall_cons; congruence | done].
Qed.

Lemma balance_of_spec_witness :
  exists ops,
    balance_of scenario_balance_of minted = Ok (minted, ops)
    /\ map (fun op => map balance (op_argument op)) ops = [[1; 0]].
Proof.
  destruct (balance_of_spec scenario_balance_of minted) as [H1 H2].
  destruct (proj1 (H2 minted_owned_inv)) as [ops Hops].
  { repeat constructor. }
  exists ops. split; [exact Hops|].
  vm_compute in Hops. injection Hops as <-. reflexivity.
Defined.

(** X2. A balance is 0 or 1, and it is 1 exactly for the address the
    ledger records for a defined token: no two addresses have balance 1 for
    one token, and the address with balance 1 is the one [get_owner]
    returns. *)
Theorem balance_unique_owner (s : storage) (a b : address) (token_id : nat) :
  (balance_ s a token_id = Ok 1
   <-> is_defined s token_id = true /\ ledger s !! token_id = Some a)
  /\ (forall n, balance_ s a token_id = Ok n -> n = 0 \/ n = 1)
  /\ (balance_ s a token_id = Ok 1 -> balance_ s b token_id = Ok 1 -> a = b)
  /\ (balance_ s a token_id = Ok 1 -> get_owner s token_id = Ok a).
Proof.
  assert (forall c, balance_ s c token_id = Ok 1
                    <-> is_defined s token_id = true /\ ledger s !! token_id = Some c) as H1.
  { intros c. unfold balance_, get_item.
    destruct (is_defined s token_id); simpl; [|by split; [|intros [? _]]].
    destruct (ledger s !! token_id) as [o|]; simpl; [|by split; [|intros [_ ?]]].
    destruct (bool_decide_reflect (o = c)) as [->|Hne]; split; try done.
    intros [_ [= ->]]. done. }
  split; [apply H1|]. split; [|split].
  - intros n. unfold balance_, get_item.
    destruct (is_defined s token_id); simpl; [|done].
    destruct (ledger s !! token_id) as [o|]; simpl; [|done].
    destruct (bool_decide (o = a)); intros [= <-]; auto.
  - intros [_ Ha]%H1 [_ Hb]%H1. congruence.
  - intros [_ Ha]%H1. unfold get_owner, get_item. by rewrite Ha.
Qed.

Lemma balance_unique_owner_witness :
  balance_ minted tanoy 0 = Ok 1 /\ get_owner minted 0 = Ok tanoy.
Proof.
  assert (balance_ minted tanoy 0 = Ok 1) as Hb by (vm_compute; reflexivity).
  split; [exact Hb|].
  exact (proj2 (proj2 (proj2 (balance_unique_owner minted tanoy tanoy 0))) Hb).
Defined.

(** ** The administrator *)

(** X3. Only the administrator can hand the role over.  After the
    hand-over the new administrator can mint, and the former one, when it
    is another address, can no longer mint, set the metadata or take the
    role back. *)
Theorem set_administrator_handover (sender new : address) (s : storage) :
  (sender <> administrator s ->
   set_administrator sender new s = Err FA2_NOT_ADMIN
   /\ call (set_administrator sender new) s = (s, Some FA2_NOT_ADMIN))
  /\ (sender = administrator s ->
      exists s',
        set_administrator sender new s = Ok s'
        /\ s' = set_administrator_field new s
        /\ (forall owner token_info, exists s'', mint new owner token_info s' = Ok s'')
        /\ (sender <> new ->
            (forall owner token_info, mint sender owner token_info s' = Err FA2_NOT_ADMIN)
            /\ (forall metadata, set_metadata sender metadata s' = Err FA2_NOT_ADMIN)
            /\ (forall back, set_administrator sender back s' = Err FA2_NOT_ADMIN))).
Proof.
  split.
  - intros Hna.
    assert (set_administrator sender new s = Err FA2_NOT_ADMIN) as He.
    { unfold set_administrator, is_administrator. by rewrite bool_decide_eq_false_2. }
    split; [done | by apply call_Err].
  - intros Ha. exists (set_administrator_field new s).
    split; [|split; [done|split]].
    + unfold set_administrator, is_administrator. by rewrite bool_decide_eq_true_2.
    + intros owner token_info. unfold mint, is_administrator. simpl.
      rewrite bool_decide_eq_true_2 by done. simpl. by eexists.
    + intros Hne.
      unfold mint, set_metadata, set_administrator, is_administrator. simpl.
      rewrite bool_decide_eq_false_2 by done. done.
Qed.

Lemma set_administrator_handover_witness :
  abby = administrator minted
  /\ abby <> tanoy
  /\ mint abby abby ∅ (call (set_administrator abby tanoy) minted).1 = Err FA2_NOT_ADMIN.
Proof.
  assert (abby = administrator minted) as Ha by reflexivity.
  assert (abby <> tanoy) as Hne by (vm_compute; discriminate).
  split; [exact Ha|]. split; [exact Hne|].
  destruct (proj2 (set_administrator_handover abby tanoy minted) Ha)
    as (s' & Hs & _ & _ & Hold).
  rewrite (call_Ok _ _ _ Hs). simpl. apply (proj1 (Hold Hne)).
Defined.

(** X4. A call by anyone but the administrator, whatever the entry point
    and whether it succeeds or fails, leaves the administrator, the
    contract metadata, [last_token_id] and the set of defined tokens as
    they were. *)
Theorem non_admin_changes_nothing_guarded `{Codec} (p : policy) (sender : address)
    (ep : entry_point) (s : storage) :
  sender <> administrator s ->
  let s' := (call (dispatch p sender ep) s).1 in
  administrator s' = administrator s
  /\ metadata s' = metadata s
  /\ last_token_id s' = last_token_id s
  /\ (forall token_id, is_defined s' token_id = is_defined s token_id).
Proof.
  intros Hna. unfold call.
  destruct (dispatch p sender ep s) as [s'|e] eqn:Hd; simpl; [|done].
  destruct ep; simpl in Hd.
  - by apply transfer_Ok_set_ledger in Hd as [l ->].
  - by apply update_operators_Ok_set_operators in Hd as [o ->].
  - unfold balance_of in Hd. by apply bind_Ok in Hd as (r & (? & _ & [= <-])%bind_Ok & [= <-]).
  - apply mint_Ok in Hd as [? _]. done.
  - split; [|split; [|split]].
    + by apply update_usage_Ok in Hd as (? & ? & ? & _ & _ & _ & ->).
    + by apply update_usage_Ok in Hd as (? & ? & ? & _ & _ & _ & ->).
    + by apply update_usage_frame in Hd as [_ ?].
    + intros t. by eapply update_usage_is_defined.
  - unfold set_administrator, is_administrator in Hd.
    by rewrite bool_decide_eq_false_2 in Hd.
  - unfold set_metadata, is_administrator in Hd.
    by rewrite bool_decide_eq_false_2 in Hd.
Qed.

Lemma non_admin_changes_nothing_guarded_witness :
  tanoy <> administrator minted
  /\ administrator (call (dispatch pol tanoy (Set_administrator tanoy)) minted).1 = abby
  /\ last_token_id (call (dispatch pol tanoy (Mint tanoy ∅)) minted).1 = 1.
Proof.
  assert (tanoy <> administrator minted) as Hna by (vm_compute; discriminate).
  split; [exact Hna|]. split.
  - exact (proj1 (non_admin_changes_nothing_guarded pol tanoy (Set_administrator tanoy)
                    minted Hna)).
  - exact (proj1 (proj2 (proj2 (non_admin_changes_nothing_guarded pol tanoy (Mint tanoy ∅)
                                  minted Hna)))).
Defined.

(** ** More on [transfer] *)

Lemma foldl_apply_leg_other (l : gmap nat address) (ls : list (address * tx_record))
    (token_id : nat) :
  (forall leg, In leg ls -> 0 < tx_amount leg.2 -> tx_token_id leg.2 <> token_id) ->
  foldl apply_leg l ls !! token_id = l !! token_id.
Proof.
  revert l. induction ls as [|leg ls IH]; intros l Hn; simpl; [done|].
  rewrite IH by (intros ???; apply Hn; [by right | done]).
  unfold apply_leg. destruct (bool_decide_reflect (0 < tx_amount leg.2)); [|done].
  rewrite lookup_insert_ne; [done|]. apply Hn; [by left | done].
Qed.

Lemma foldl_apply_leg_is_Some (l : gmap nat address) (ls : list (address * tx_record))
    (token_id : nat) :
  is_Some (l !! token_id) -> is_Some (foldl apply_leg l ls !! token_id).
Proof.
  revert l. induction ls as [|leg ls IH]; intros l Hs; simpl; [done|].
  apply IH. unfold apply_leg. destruct (bool_decide (0 < tx_amount leg.2)); [|done].
  rewrite lookup_insert_is_Some. destruct (decide (tx_token_id leg.2 = token_id)); auto.
Qed.

Lemma transfer_Ok_legs (p : policy) (sender : address) (batch : list transfer_batch)
    (s s' : storage) :
  transfer p sender batch s = Ok s' ->
  run_legs p sender (legs batch) s = Ok s'
  /\ s' = set_ledger (foldl apply_leg (ledger s) (legs batch)) s.
Proof.
  intros Ht.
  assert (supports_transfer p = true) as Hp.
  { unfold transfer in Ht. by destruct (supports_transfer p). }
  rewrite transfer_run_legs in Ht by done. split; [done | by eapply run_legs_Ok].
Qed.

(** X5. A successful [transfer] writes nothing but the ledger, and in the
    ledger only the entries of tokens named by a leg with a positive
    amount; it never removes a ledger entry. *)
Theorem transfer_frame (p : policy) (sender : address) (batch : list transfer_batch)
    (s s' : storage) :
  transfer p sender batch s = Ok s' ->
  metadata s' = metadata s
  /\ last_token_id s' = last_token_id s
  /\ token_metadata s' = token_metadata s
  /\ operators s' = operators s
  /\ administrator s' = administrator s
  /\ (forall token_id,
        (forall leg, In leg (legs batch) -> 0 < tx_amount leg.2 ->
                     tx_token_id leg.2 <> token_id) ->
        ledger s' !! token_id = ledger s !! token_id)
  /\ (forall token_id, is_Some (ledger s !! token_id) -> is_Some (ledger s' !! token_id)).
Proof.
  intros [_ ->]%transfer_Ok_legs. simpl. repeat split; try done.
  - intros token_id. apply foldl_apply_leg_other.
  - intros token_id. apply foldl_apply_leg_is_Some.
Qed.

Lemma transfer_frame_witness :
  transfer pol tanoy scenario_transfer minted = Ok (set_ledger {[ 0 := abby ]} minted)
  /\ operators (set_ledger {[ 0 := abby ]} minted) = operators minted
  /\ ledger (set_ledger {[ 0 := abby ]} minted) !! 5 = ledger minted !! 5.
Proof.
  assert (transfer pol tanoy scenario_transfer minted = Ok (set_ledger {[ 0 := abby ]} minted))
    as Ht by (vm_compute; reflexivity).
  split; [exact Ht|].
  destruct (transfer_frame pol tanoy scenario_transfer minted _ Ht)
    as (_ & _ & _ & Ho & _ & Hl & _).
  split; [exact Ho|]. apply Hl.
  intros leg [<-|[]] _. simpl. lia.
Defined.

(** X6. Batches compose: a batch without legs succeeds and changes
    nothing, whoever calls; transferring a concatenation is transferring
    the first batch and then, from the storage it gives, the second.  The
    host makes the difference on failure: when the second batch fails, one
    call with both keeps the storage it started from, two calls keep the
    effect of the first. *)
Theorem transfer_composition (p : policy) (sender : address)
    (batch1 batch2 : list transfer_batch) (s : storage) :
  (supports_transfer p = true -> legs batch1 = [] -> transfer p sender batch1 s = Ok s)
  /\ transfer p sender (batch1 ++ batch2) s
     = (s1 <- transfer p sender batch1 s ;; transfer p sender batch2 s1)
  /\ (forall s1 e,
        transfer p sender batch1 s = Ok s1 ->
        transfer p sender batch2 s1 = Err e ->
        call (transfer p sender (batch1 ++ batch2)) s = (s, Some e)
        /\ call (transfer p sender batch2) (call (transfer p sender batch1) s).1
           = (s1, Some e)).
Proof.
  assert (transfer p sender (batch1 ++ batch2) s
          = (s1 <- transfer p sender batch1 s ;; transfer p sender batch2 s1)) as Happ.
  { unfold transfer. destruct (supports_transfer p); [|done]. apply for__app. }
  split; [|split; [done|]].
  - intros Hp Hl. rewrite transfer_run_legs by done. by rewrite Hl.
  - intros s1 e H1 H2. split.
    + apply call_Err. by rewrite Happ, H1.
    + rewrite (call_Ok _ _ _ H1). simpl. by apply call_Err.
Qed.

Lemma transfer_composition_witness :
  call (transfer pol tanoy (scenario_transfer ++ scenario_transfer)) minted
  = (minted, Some FA2_INSUFFICIENT_BALANCE)
  /\ call (transfer pol tanoy scenario_transfer)
       (call (transfer pol tanoy scenario_transfer) minted).1
     = (set_ledger {[ 0 := abby ]} minted, Some FA2_INSUFFICIENT_BALANCE).
Proof.
  apply (proj2 (proj2 (transfer_composition pol tanoy scenario_transfer scenario_transfer
                         minted))).
  - vm_compute. reflexivity.
  - vm_compute. reflexivity.
Defined.

Lemma transfer_single (sender from_ : address) (tx : tx_record) (s : storage) :
  transfer pol sender [ {| from_ := from_; txs := [tx] |} ] s
  = transfer_leg pol sender from_ tx s.
Proof.
  unfold transfer. simpl. by destruct (transfer_leg _ sender from_ tx s).
Qed.

(** What the success of a leg tells about the storage it ran in. *)
Lemma transfer_leg_pol_Ok (sender from_ : address) (tx : tx_record) (s s' : storage) :
  transfer_leg pol sender from_ tx s = Ok s' ->
  is_defined s (tx_token_id tx) = true
  /\ authorized s sender from_ (tx_token_id tx)
  /\ (0 < tx_amount tx ->
      tx_amount tx = 1 /\ ledger s !! tx_token_id tx = Some from_).
Proof.
  intros Hleg. pose proof (transfer_leg_defined _ _ _ _ _ _ Hleg) as Hd.
  split; [done|].
  destruct (decide (authorized s sender from_ (tx_token_id tx))) as [Ha|Hna]; [|
    by rewrite transfer_leg_not_operator in Hleg].
  split; [done|]. intros Hpos.
  rewrite transfer_leg_authorized, bool_decide_eq_true_2 in Hleg by done.
  unfold transfer_tx_, get_item in Hleg.
  destruct (bool_decide_reflect (tx_amount tx = 1)) as [H1|H1]; [|done].
  split; [done|].
  destruct (ledger s !! tx_token_id tx) as [o|]; [|done]. simpl in Hleg.
  destruct (bool_decide_reflect (o = from_)) as [Heq|]; [by rewrite Heq | done].
Qed.

Lemma transfer_leg_owner_Ok (sender from_ : address) (tx : tx_record) (s : storage) :
  is_defined s (tx_token_id tx) = true ->
  authorized s sender from_ (tx_token_id tx) ->
  ledger s !! tx_token_id tx = Some from_ ->
  tx_amount tx = 1 ->
  transfer_leg pol sender from_ tx s
  = Ok (set_ledger (<[tx_token_id tx := tx_to_ tx]> (ledger s)) s).
Proof.
  intros Hd Ha Ho H1. rewrite transfer_leg_authorized by done.
  rewrite bool_decide_eq_true_2 by lia.
  unfold transfer_tx_, get_item. rewrite Ho, H1. simpl.
  by rewrite bool_decide_eq_true_2.
Qed.

Lemma transfer_leg_other_owner (sender from_ o : address) (tx : tx_record) (s : storage) :
  is_defined s (tx_token_id tx) = true ->
  authorized s sender from_ (tx_token_id tx) ->
  ledger s !! tx_token_id tx = Some o ->
  o <> from_ ->
  0 < tx_amount tx ->
  transfer_leg pol sender from_ tx s = Err FA2_INSUFFICIENT_BALANCE.
Proof.
  intros Hd Ha Ho Hne Hpos. rewrite transfer_leg_authorized by done.
  rewrite bool_decide_eq_true_2 by done.
  unfold transfer_tx_, get_item. rewrite Ho.
  destruct (bool_decide (tx_amount tx = 1)); simpl; [|done].
  by rewrite bool_decide_eq_false_2.
Qed.

(** X7. Moving a token moves its balance.  When the caller is authorized
    and [from_] owns the defined token, the transfer of one unit to another
    address succeeds; afterwards the receiver has balance 1 and is the
    owner, [from_] has balance 0, and the same transfer asked again fails
    with FA2_INSUFFICIENT_BALANCE.  A transfer to [from_] itself succeeds
    and changes nothing. *)
Theorem transfer_moves_balance (sender from_ to_ : address) (token_id : nat) (s : storage) :
  is_defined s token_id = true ->
  authorized s sender from_ token_id ->
  ledger s !! token_id = Some from_ ->
  let batch := [ {| from_ := from_;
                    txs := [ {| tx_to_ := to_; tx_token_id := token_id;
                                tx_amount := 1 |} ] |} ] in
  exists s',
    transfer pol sender batch s = Ok s'
    /\ s' = set_ledger (<[token_id := to_]> (ledger s)) s
    /\ get_owner s' token_id = Ok to_
    /\ balance_ s' to_ token_id = Ok 1
    /\ (from_ <> to_ ->
        balance_ s' from_ token_id = Ok 0
        /\ transfer pol sender batch s' = Err FA2_INSUFFICIENT_BALANCE)
    /\ (from_ = to_ -> s' = s).
Proof.
  intros Hd Ha Ho batch. unfold batch. clear batch.
  set (tx := {| tx_to_ := to_; tx_token_id := token_id; tx_amount := 1 |}).
  pose proof (transfer_leg_owner_Ok sender from_ tx s Hd Ha Ho eq_refl) as Hleg.
  simpl in Hleg.
  exists (set_ledger (<[token_id := to_]> (ledger s)) s).
  set (s' := set_ledger (<[token_id := to_]> (ledger s)) s) in *.
  rewrite transfer_single. split; [done|]. split; [done|].
  assert (is_defined s' token_id = true) as Hd' by done.
  assert (ledger s' !! token_id = Some to_) as Ho'
    by (subst s'; simpl; apply lookup_insert_eq).
  split; [by unfold get_owner, get_item; rewrite Ho'|].
  split; [|split].
  - unfold balance_, get_item. rewrite Hd', Ho'. simpl. by rewrite bool_decide_eq_true_2.
  - intros Hne. split.
    + unfold balance_, get_item. rewrite Hd', Ho'. simpl.
      by rewrite bool_decide_eq_false_2.
    + rewrite transfer_single.
      apply (transfer_leg_other_owner sender from_ to_ tx s' Hd' Ha Ho');
        [congruence | simpl; lia].
  - intros <-. subst s'. rewrite insert_id by done. apply set_ledger_id.
Qed.

Lemma transfer_moves_balance_witness :
  balance_ (set_ledger (<[0 := abby]> (ledger minted)) minted) abby 0 = Ok 1
  /\ balance_ (set_ledger (<[0 := abby]> (ledger minted)) minted) tanoy 0 = Ok 0
  /\ transfer pol tanoy scenario_transfer
       (set_ledger (<[0 := abby]> (ledger minted)) minted)
     = Err FA2_INSUFFICIENT_BALANCE.
Proof.
  destruct (transfer_moves_balance tanoy tanoy abby 0 minted)
    as (s' & _ & -> & _ & H1 & H2 & _).
  - vm_compute. reflexivity.
  - left. reflexivity.
  - vm_compute. reflexivity.
  - split; [exact H1|]. apply H2. vm_compute. discriminate.
Defined.

(** ** Who can change what *)

Lemma run_legs_owner_change (sender : address) (ls : list (address * tx_record))
    (s s' : storage) (token_id : nat) (o : address) :
  run_legs pol sender ls s = Ok s' ->
  ledger s !! token_id = Some o ->
  ledger s' !! token_id <> Some o ->
  authorized s sender o token_id.
Proof.
  unfold run_legs. revert s. induction ls as [|[f tx] ls IH]; intros s; simpl.
  - intros [= <-]. done.
  - intros (s1 & Hleg & Hrest)%bind_Ok Ho Hchg. simpl in Hleg.
    destruct (transfer_leg_pol_Ok _ _ _ _ _ Hleg) as (_ & Ha & Hpos).
    apply transfer_leg_Ok in Hleg as Hs1.
    destruct (decide (ledger s1 !! token_id = Some o)) as [Ho1|Hne1].
    + assert (authorized s1 sender o token_id) as Ha1 by by eapply IH.
      by subst s1.
    + subst s1. simpl in Hne1. unfold apply_leg in Hne1. simpl in Hne1.
      destruct (bool_decide_reflect (0 < tx_amount tx)) as [Hp|]; [|done].
      destruct (decide (tx_token_id tx = token_id)) as [<-|Hne].
      * destruct (Hpos Hp) as [_ Hf]. rewrite Hf in Ho. by injection Ho as <-.
      * by rewrite lookup_insert_ne in Hne1.
Qed.

(** X8. The owner recorded for a token changes only through a [transfer]
    call whose caller is that owner or one of its operators for the token.
    No other entry point, and no call by anybody else, takes a token away
    from its owner; and no call ever leaves a token that had an owner
    without one. *)
Theorem ownership_changes_only_by_authorized `{Codec} (sender : address)
    (ep : entry_point) (s : storage) (token_id : nat) (o : address) :
  token_ids_inv s ->
  ledger s !! token_id = Some o ->
  let s' := (call (dispatch pol sender ep) s).1 in
  is_Some (ledger s' !! token_id)
  /\ (ledger s' !! token_id <> Some o ->
      (exists batch, ep = Transfer batch) /\ authorized s sender o token_id).
Proof.
  intros Hinv Ho. cbv zeta. unfold call.
  destruct (dispatch pol sender ep s) as [s'|e] eqn:Hd; simpl; [|split; [by eauto | done]].
  destruct ep; simpl in Hd.
  - apply transfer_Ok_legs in Hd as [Hd Hs']. split.
    + rewrite Hs'. simpl. apply foldl_apply_leg_is_Some. by eauto.
    + intros Hchg. split; [by eauto|]. by eapply run_legs_owner_change.
  - apply update_operators_Ok_set_operators in Hd as [ops ->]. simpl.
    split; [by eauto | done].
  - unfold balance_of in Hd.
    apply bind_Ok in Hd as (r & (? & _ & [= <-])%bind_Ok & [= <-]). split; [by eauto | done].
  - apply mint_Ok in Hd as [_ ->]. simpl.
    assert (token_id < last_token_id s) as Hlt by (apply (proj1 Hinv); right; eauto).
    rewrite lookup_insert_ne by lia. split; [by eauto | done].
  - apply update_usage_frame in Hd as [-> _]. split; [by eauto | done].
  - unfold set_administrator in Hd. apply bind_Ok in Hd as ([] & _ & [= <-]).
    split; [by eauto | done].
  - unfold set_metadata in Hd. apply bind_Ok in Hd as ([] & _ & [= <-]).
    split; [by eauto | done].
Qed.

Lemma ownership_changes_only_by_authorized_witness :
  token_ids_inv minted
  /\ ledger minted !! 0 = Some tanoy
  /\ ledger (call (dispatch pol abby (Transfer scenario_transfer)) minted).1 !! 0
     = Some tanoy
  /\ is_Some (ledger (call (dispatch pol tanoy (Transfer scenario_transfer)) minted).1 !! 0).
Proof.
  assert (ledger minted !! 0 = Some tanoy) as Ho by (vm_compute; reflexivity).
  split; [exact minted_token_ids_inv|]. split; [exact Ho|]. split.
  - vm_compute. reflexivity.
  - exact (proj1 (ownership_changes_only_by_authorized tanoy (Transfer scenario_transfer)
                    minted 0 tanoy minted_token_ids_inv Ho)).
Defined.

Lemma update_operators_pol_Ok (sender : address) (batch : list operator_action)
    (s s' : storage) :
  update_operators pol sender batch s = Ok s' ->
  Forall (fun action => op_owner (action_permission action) = sender) batch
  /\ s' = set_operators (foldl apply_action (operators s) batch) s.
Proof.
  intros Hu.
  destruct (decide (Forall (fun action => op_owner (action_permission action) = sender)
                      batch)) as [Hall|Hex].
  - split; [done|]. rewrite update_operators_all_owner in Hu by done. by injection Hu as <-.
  - apply not_Forall_Exists in Hex; [|intros a; apply _].
    by rewrite update_operators_not_owner in Hu.
Qed.

Lemma foldl_apply_action_other (o : gmap operator_permission unit)
    (batch : list operator_action) (perm : operator_permission) :
  Forall (fun action => action_permission action <> perm) batch ->
  foldl apply_action o batch !! perm = o !! perm.
Proof.
  revert o. induction batch as [|a batch IH]; intros o Hall; simpl; [done|].
  apply Forall_cons in Hall as [Hne Hall]. rewrite IH by done.
  destruct a as [q|q]; simpl in *.
  - by rewrite lookup_insert_ne.
  - by rewrite lookup_delete_ne.
Qed.

(** X9. A grant is made or withdrawn only by [update_operators] called by
    the owner the grant names: whatever the entry point and the caller, a
    permission whose owner is not the caller is in the operator set after
    the call exactly when it was before. *)
Theorem operators_change_only_by_owner `{Codec} (sender : address) (ep : entry_point)
    (s : storage) (perm : operator_permission) :
  let s' := (call (dispatch pol sender ep) s).1 in
  (op_owner perm <> sender -> is_operator pol s' perm = is_operator pol s perm)
  /\ (is_operator pol s' perm <> is_operator pol s perm ->
      exists batch,
        ep = Update_operators batch
        /\ Exists (fun action => action_permission action = perm) batch).
Proof.
  cbv zeta. unfold call.
  destruct (dispatch pol sender ep s) as [s'|e] eqn:Hd; simpl; [|done].
  unfold OwnerOrOperatorTransfer.is_operator.
  destruct ep; simpl in Hd.
  - apply transfer_Ok_set_ledger in Hd as [l ->]. done.
  - apply update_operators_pol_Ok in Hd as [Hall ->]. simpl. unfold contains. split.
    + intros Hne. rewrite foldl_apply_action_other; [done|].
      eapply Forall_impl; [exact Hall|]. simpl. by intros a <- <-.
    + intros Hchg. exists batch. split; [done|].
      destruct (decide (Exists (fun action => action_permission action = perm) batch))
        as [|Hn]; [done|].
      exfalso. apply Hchg. rewrite foldl_apply_action_other; [done|].
      by apply Forall_Exists_neg.
  - unfold balance_of in Hd.
    apply bind_Ok in Hd as (r & (? & _ & [= <-])%bind_Ok & [= <-]). done.
  - apply mint_Ok in Hd as [_ ->]. done.
  - by apply update_usage_Ok in Hd as (? & ? & ? & _ & _ & _ & ->).
  - unfold set_administrator in Hd. by apply bind_Ok in Hd as ([] & _ & [= <-]).
  - unfold set_metadata in Hd. by apply bind_Ok in Hd as ([] & _ & [= <-]).
Qed.

Lemma operators_change_only_by_owner_witness :
  op_owner {| op_owner := tanoy; op_operator := abby; op_token_id := 0 |} <> abby
  /\ is_operator pol
       (call (dispatch pol abby
                (Update_operators
                   [ add_operator {| op_owner := tanoy; op_operator := abby;
                                     op_token_id := 0 |} ])) minted).1
       {| op_owner := tanoy; op_operator := abby; op_token_id := 0 |}
     = false.
Proof.
  assert (op_owner {| op_owner := tanoy; op_operator := abby; op_token_id := 0 |} <> abby)
    as Hne by (vm_compute; discriminate).
  split; [exact Hne|].
  rewrite (proj1 (operators_change_only_by_owner abby _ minted _) Hne).
  vm_compute. reflexivity.
Defined.

(** ** Operators at work *)

Lemma update_operators_single (sender : address) (action : operator_action) (s : storage) :
  update_operators pol sender [action] s = update_operators_action pol sender action s.
Proof.
  unfold update_operators. simpl. by destruct (update_operators_action _ sender action s).
Qed.

(** X10. The life of a grant.  An address that is neither the owner nor
    an operator cannot move the owner's token and cannot grant itself the
    right.  Once the owner grants it, the operator can move the token; the
    grant is for that token only, and the transfer does not consume it.
    Once the owner withdraws the grant, the operator is refused again. *)
Theorem operator_lifecycle (owner operator to_ : address) (token_id : nat) (s : storage) :
  operator <> owner ->
  is_defined s token_id = true ->
  ledger s !! token_id = Some owner ->
  (forall t, operators s !! {| op_owner := owner; op_operator := operator;
                               op_token_id := t |} = None) ->
  let perm := {| op_owner := owner; op_operator := operator; op_token_id := token_id |} in
  let move t := [ {| from_ := owner;
                     txs := [ {| tx_to_ := to_; tx_token_id := t; tx_amount := 1 |} ] |} ] in
  transfer pol operator (move token_id) s = Err FA2_NOT_OPERATOR
  /\ update_operators pol operator [add_operator perm] s = Err FA2_NOT_OWNER
  /\ exists s1,
       update_operators pol owner [add_operator perm] s = Ok s1
       /\ transfer pol operator (move token_id) s1
          = Ok (set_ledger (<[token_id := to_]> (ledger s)) s1)
       /\ is_operator pol (set_ledger (<[token_id := to_]> (ledger s)) s1) perm = true
       /\ (forall t, t <> token_id -> is_defined s t = true ->
                     transfer pol operator (move t) s1 = Err FA2_NOT_OPERATOR)
       /\ update_operators pol owner [remove_operator perm] s1 = Ok s
       /\ is_operator pol s perm = false.
Proof.
  intros Hne Hd Ho Hnone perm move. unfold move, perm. clear move perm.
  set (perm := {| op_owner := owner; op_operator := operator; op_token_id := token_id |}).
  assert (forall t, ~ authorized s operator owner t) as Hna.
  { intros t [?|[u Hu]]; [done|]. by rewrite Hnone in Hu. }
  split; [|split].
  - rewrite transfer_single. by apply transfer_leg_not_operator.
  - rewrite update_operators_single, update_operators_action_eq.
    by rewrite bool_decide_eq_false_2.
  - exists (set_operators (<[perm := tt]> (operators s)) s).
    set (s1 := set_operators (<[perm := tt]> (operators s)) s).
    assert (authorized s1 operator owner token_id) as Ha.
    { right. simpl. fold perm. rewrite lookup_insert_eq. eauto. }
    split; [|split; [|split; [|split; [|split]]]].
    + rewrite update_operators_single, update_operators_action_eq.
      by rewrite bool_decide_eq_true_2.
    + rewrite transfer_single.
      by rewrite (transfer_leg_owner_Ok operator owner
                    {| tx_to_ := to_; tx_token_id := token_id; tx_amount := 1 |}
                    s1 Hd Ha Ho eq_refl).
    + simpl. unfold OwnerOrOperatorTransfer.is_operator. apply contains_true. simpl.
      rewrite lookup_insert_eq. eauto.
    + intros t Ht Hdt. rewrite transfer_single. apply transfer_leg_not_operator; [done|].
      simpl. intros [?|[u Hu]]; [done|]. simpl in Hu.
      rewrite lookup_insert_ne in Hu by (unfold perm; congruence).
      by rewrite Hnone in Hu.
    + rewrite update_operators_single, update_operators_action_eq.
      rewrite bool_decide_eq_true_2 by done. f_equal.
      unfold s1, set_operators. simpl.
      rewrite delete_insert_id by apply Hnone. by destruct s.
    + simpl. unfold OwnerOrOperatorTransfer.is_operator. apply contains_false.
      apply Hnone.
Qed.

Lemma operator_lifecycle_witness :
  transfer pol abby scenario_transfer minted = Err FA2_NOT_OPERATOR
  /\ exists s1,
       update_operators pol tanoy
         [ add_operator {| op_owner := tanoy; op_operator := abby; op_token_id := 0 |} ]
         minted = Ok s1
       /\ transfer pol abby scenario_transfer s1
          = Ok (set_ledger (<[0 := abby]> (ledger minted)) s1).
Proof.
  destruct (operator_lifecycle tanoy abby abby 0 minted)
    as (H1 & _ & s1 & H2 & H3 & _).
  - vm_compute. discriminate.
  - vm_compute. reflexivity.
  - vm_compute. reflexivity.
  - intros t. apply lookup_empty.
  - split; [exact H1|]. exists s1. split; [exact H2 | exact H3].
Defined.

(** X11. Operator updates compose.  The empty batch changes nothing; a
    concatenation is the first batch and then the second; within a batch
    the last action on a permission decides, and permissions the batch
    does not name are left as they were. *)
Theorem update_operators_composition (sender : address)
    (batch1 batch2 : list operator_action) (s : storage) (perm : operator_permission) :
  update_operators pol sender [] s = Ok s
  /\ update_operators pol sender (batch1 ++ batch2) s
     = (s1 <- update_operators pol sender batch1 s ;;
        update_operators pol sender batch2 s1)
  /\ (forall s',
        update_operators pol sender (batch1 ++ [add_operator perm]) s = Ok s' ->
        is_operator pol s' perm = true)
  /\ (forall s',
        update_operators pol sender (batch1 ++ [remove_operator perm]) s = Ok s' ->
        is_operator pol s' perm = false)
  /\ (forall s',
        update_operators pol sender batch1 s = Ok s' ->
        Forall (fun action => action_permission action <> perm) batch1 ->
        is_operator pol s' perm = is_operator pol s perm).
Proof.
  split; [done|]. split; [apply for__app|].
  simpl. unfold OwnerOrOperatorTransfer.is_operator. split; [|split].
  - intros s' [_ ->]%update_operators_pol_Ok. apply contains_true. simpl.
    rewrite foldl_snoc. simpl. rewrite lookup_insert_eq. eauto.
  - intros s' [_ ->]%update_operators_pol_Ok. apply contains_false. simpl.
    rewrite foldl_snoc. simpl. apply lookup_delete_eq.
  - intros s' [_ ->]%update_operators_pol_Ok Hall. unfold contains. simpl.
    by rewrite foldl_apply_action_other.
Qed.

Lemma update_operators_composition_witness :
  is_operator pol
    (set_operators
       (delete {| op_owner := tanoy; op_operator := abby; op_token_id := 0 |}
          (<[ {| op_owner := tanoy; op_operator := abby; op_token_id := 0 |} := tt ]>
             (operators minted))) minted)
    {| op_owner := tanoy; op_operator := abby; op_token_id := 0 |}
  = false.
Proof.
  apply (proj1 (proj2 (proj2 (proj2
    (update_operators_composition tanoy
       [ add_operator {| op_owner := tanoy; op_operator := abby; op_token_id := 0 |} ]
       [] minted {| op_owner := tanoy; op_operator := abby; op_token_id := 0 |}))))).
  vm_compute. reflexivity.
Defined.

(** ** Origination and minting, seen through the views *)

Lemma initial_mint_lookup (token_metadata : list (gmap string bytes))
    (ledger : gmap nat address) (l : gmap nat address)
    (d : gmap nat token_metadata_value) (token_id : nat) :
  initial_mint token_metadata ledger = Some (l, d) ->
  l = ledger
  /\ d !! token_id
     = (fun info => {| tm_token_id := token_id; tm_token_info := info |})
         <$> token_metadata !! token_id.
Proof.
  unfold initial_mint. destruct (decide (map_Forall _ ledger)); [|done].
  intros [= <- <-]. split; [done|].
  rewrite map_lookup_imap, lookup_map_seq_0. by destruct (token_metadata !! token_id).
Qed.



(** X13. After a mint the views show the new token and nothing else has
    moved: the new id has the given owner, who has balance 1 for it, its
    supply is 1, [all_tokens] lists it last; and every token defined before
    keeps its owner, its balances, its supply and its metadata. *)
Theorem mint_then_query (sender owner : address) (token_info : gmap string bytes)
    (s s' : storage) :
  token_ids_inv s ->
  mint sender owner token_info s = Ok s' ->
  get_owner s' (last_token_id s) = Ok owner
  /\ balance_ s' owner (last_token_id s) = Ok 1
  /\ total_supply s' (last_token_id s) = Ok 1
  /\ all_tokens s' = all_tokens s ++ [last_token_id s]
  /\ (forall token_id,
        is_defined s token_id = true ->
        get_owner s' token_id = get_owner s token_id
        /\ (forall a, balance_ s' a token_id = balance_ s a token_id)
        /\ total_supply s' token_id = total_supply s token_id
        /\ token_metadata s' !! token_id = token_metadata s !! token_id).
Proof.
  intros Hinv [_ ->]%mint_Ok.
  match goal with |- context [get_owner ?t _ = Ok owner] => set (s' := t) end.
  assert (is_defined s' (last_token_id s) = true) as Hnew.
  { apply contains_true. simpl. rewrite lookup_insert_eq. eauto. }
  split; [|split; [|split; [|split]]].
  - unfold get_owner, get_item. simpl. by rewrite lookup_insert_eq.
  - unfold balance_, get_item. rewrite Hnew. simpl. rewrite lookup_insert_eq. simpl.
    by rewrite bool_decide_eq_true_2.
  - unfold total_supply, supply_. by rewrite Hnew.
  - unfold all_tokens. simpl. by rewrite Nat.add_1_r, seq_S.
  - intros token_id Hd.
    assert (token_id < last_token_id s) as Hlt by by apply Hinv.
    assert (ledger s' !! token_id = ledger s !! token_id) as Hl
      by (simpl; apply lookup_insert_ne; lia).
    assert (token_metadata s' !! token_id = token_metadata s !! token_id) as Hm
      by (simpl; apply lookup_insert_ne; lia).
    assert (is_defined s' token_id = true) as Hd'.
    { apply contains_true. rewrite Hm. by apply contains_true. }
    unfold get_owner, balance_, total_supply, supply_, get_item.
    by rewrite Hd, Hd', Hl, Hm.
Qed.

Lemma mint_then_query_witness :
  token_ids_inv minted
  /\ mint abby abby ∅ minted
     = Ok (set_last_token_id 2
             (set_token_metadata
                (<[1 := {| tm_token_id := 1; tm_token_info := ∅ |}]> (token_metadata minted))
                (set_ledger (<[1 := abby]> (ledger minted)) minted)))
  /\ all_tokens
       (set_last_token_id 2
          (set_token_metadata
             (<[1 := {| tm_token_id := 1; tm_token_info := ∅ |}]> (token_metadata minted))
             (set_ledger (<[1 := abby]> (ledger minted)) minted)))
     = [0; 1].
Proof.
  assert (mint abby abby ∅ minted
     = Ok (set_last_token_id 2
             (set_token_metadata
                (<[1 := {| tm_token_id := 1; tm_token_info := ∅ |}]> (token_metadata minted))
                (set_ledger (<[1 := abby]> (ledger minted)) minted)))) as Hm
    by (vm_compute; reflexivity).
  split; [exact minted_token_ids_inv|]. split; [exact Hm|].
  exact (proj1 (proj2 (proj2 (proj2
           (mint_then_query abby abby ∅ minted _ minted_token_ids_inv Hm))))).
Defined.

(** ** More on the usage counter *)

Lemma update_usage_eq `{Codec} (sender : address) (token_id : nat) (s : storage)
    (entry : token_metadata_value) (packed : bytes) (n : Z) :
  token_metadata s !! token_id = Some entry ->
  tm_token_info entry !! "usage" = Some packed ->
  unpack packed = Some n ->
  get_usage s token_id = Ok n
  /\ update_usage sender token_id s
     = Ok (set_token_metadata
             (<[token_id := {| tm_token_id := tm_token_id entry;
                               tm_token_info :=
                                 <["usage" := pack (n + 1)]> (tm_token_info entry) |}]>
                (token_metadata s)) s).
Proof.
  intros He Hp Hu. unfold get_usage, update_usage, get_item.
  rewrite He. simpl. rewrite Hp. simpl. rewrite Hu. simpl. done.
Qed.

(** X14. The counter counts: on a token whose "usage" holds the packed
    integer [n], after [k] calls of [update_usage], by whomever,
    [get_usage] returns [n + k]; the ledger, the operators, the
    administrator and [last_token_id] are as before the calls. *)
Theorem update_usage_counts `{Codec} (callers : list address) (token_id : nat)
    (s : storage) (entry : token_metadata_value) (n : Z) :
  token_metadata s !! token_id = Some entry ->
  tm_token_info entry !! "usage" = Some (pack n) ->
  let s' := foldl (fun s1 sender => (call (update_usage sender token_id) s1).1)
              s callers in
  get_usage s' token_id = Ok (n + Z.of_nat (length callers))%Z
  /\ ledger s' = ledger s
  /\ operators s' = operators s
  /\ administrator s' = administrator s
  /\ last_token_id s' = last_token_id s.
Proof.
  intros He Hu. cbv zeta. revert s entry n He Hu.
  induction callers as [|sender callers IH]; intros s entry n He Hu.
  - simpl. rewrite Z.add_0_r.
    split; [|done]. apply (update_usage_eq tanoy _ _ _ _ _ He Hu). apply unpack_pack.
  - cbn [foldl length].
    destruct (update_usage_eq sender _ _ _ _ _ He Hu (unpack_pack n)) as [_ Hup].
    rewrite (call_Ok _ _ _ Hup). cbn [fst].
    match goal with |- context [foldl _ ?t callers] => set (s1 := t) end.
    destruct (IH s1 {| tm_token_id := tm_token_id entry;
                       tm_token_info := <["usage" := pack (n + 1)]> (tm_token_info entry) |}
                 (n + 1)%Z) as (Hg & Hl & Ho & Ha & Hn).
    + simpl. apply lookup_insert_eq.
    + simpl. apply lookup_insert_eq.
    + rewrite Hg, Hl, Ho, Ha, Hn. split; [f_equal; lia | done].
Qed.

Lemma update_usage_counts_witness :
  get_usage
    (foldl (fun s1 sender => (call (update_usage sender 0) s1).1) minted
       [tanoy; abby; tanoy])
    0
  = Ok 3%Z.
Proof.
  apply (update_usage_counts [tanoy; abby; tanoy] 0 minted
           {| tm_token_id := 0; tm_token_info := {[ "usage" := [x05; x00; x00] ]} |} 0%Z).
  - vm_compute. reflexivity.
  - vm_compute. reflexivity.
Defined.

(** X15. [update_usage] succeeds exactly when [get_usage] does, whatever
    bytes "usage" holds, and then raises what [get_usage] returns by 1.
    Both fail on the map read when the token or the key is missing, and
    on [open_some] when the bytes under "usage" do not unpack. *)
Theorem usage_read_and_update `{Codec} (sender : address) (token_id : nat) (s : storage) :
  ((exists n, get_usage s token_id = Ok n)
   <-> (exists s', update_usage sender token_id s = Ok s'))
  /\ (forall n s',
        get_usage s token_id = Ok n ->
        update_usage sender token_id s = Ok s' ->
        get_usage s' token_id = Ok (n + 1)%Z)
  /\ (token_metadata s !! token_id = None ->
      get_usage s token_id = Err GET_ITEM_MISSING_KEY)
  /\ (forall entry,
        token_metadata s !! token_id = Some entry ->
        tm_token_info entry !! "usage" = None ->
        get_usage s token_id = Err GET_ITEM_MISSING_KEY)
  /\ (forall entry packed,
        token_metadata s !! token_id = Some entry ->
        tm_token_info entry !! "usage" = Some packed ->
        unpack packed = None ->
        get_usage s token_id = Err OPEN_SOME_NONE
        /\ update_usage sender token_id s = Err OPEN_SOME_NONE).
Proof.
  destruct (token_metadata s !! token_id) as [entry|] eqn:He.
  2: { assert (get_usage s token_id = Err GET_ITEM_MISSING_KEY) as Hg
         by (unfold get_usage, get_item; by rewrite He).
       assert (update_usage sender token_id s = Err GET_ITEM_MISSING_KEY) as Hup
         by (unfold update_usage, get_item; by rewrite He).
       rewrite Hg, Hup. split; [split; intros [? ?]; done|]. by repeat split. }
  destruct (tm_token_info entry !! "usage") as [packed|] eqn:Hp.
  2: { assert (get_usage s token_id = Err GET_ITEM_MISSING_KEY) as Hg
         by (unfold get_usage, get_item; rewrite He; simpl; by rewrite Hp).
       assert (update_usage sender token_id s = Err GET_ITEM_MISSING_KEY) as Hup
         by (unfold update_usage, get_item; rewrite He; simpl; by rewrite Hp).
       rewrite Hg, Hup. split; [split; intros [? ?]; done|].
       split; [done|]. split; [done|]. split; [done|].
       intros e b [= <-]. congruence. }
  destruct (unpack packed) as [n|] eqn:Hu.
  - destruct (update_usage_eq sender _ _ _ _ _ He Hp Hu) as [Hg Hup].
    rewrite Hg, Hup. split; [split; intros _; by eauto|].
    split; [|split; [done|split]].
    + intros n' s' [= <-] [= <-]. unfold get_usage, get_item. simpl.
      rewrite lookup_insert_eq. simpl. rewrite lookup_insert_eq. simpl.
      by rewrite unpack_pack.
    + intros e [= <-]. congruence.
    + intros e b [= <-]. congruence.
  - assert (get_usage s token_id = Err OPEN_SOME_NONE) as Hg
      by (unfold get_usage, get_item; rewrite He; simpl; rewrite Hp; simpl; by rewrite Hu).
    assert (update_usage sender token_id s = Err OPEN_SOME_NONE) as Hup
      by (unfold update_usage, get_item; rewrite He; simpl; rewrite Hp; simpl;
          by rewrite Hu).
    rewrite Hg, Hup. split; [split; intros [? ?]; done|].
    split; [done|]. split; [done|]. split; [|done].
    intros e [= <-]. congruence.
Qed.

Lemma usage_read_and_update_witness :
  update_usage tanoy 0
    (set_token_metadata {[ 0 := {| tm_token_id := 0;
                                   tm_token_info := {[ "usage" := [] ]} |} ]} minted)
  = Err OPEN_SOME_NONE.
Proof.
  destruct (usage_read_and_update tanoy 0
              (set_token_metadata {[ 0 := {| tm_token_id := 0;
                                             tm_token_info := {[ "usage" := [] ]} |} ]}
                 minted)) as (_ & _ & _ & _ & H).
  apply (H {| tm_token_id := 0; tm_token_info := {[ "usage" := [] ]} |} []).
  - vm_compute. reflexivity.
  - vm_compute. reflexivity.
  - vm_compute. reflexivity.
Defined.

(** ** Token metadata *)

(** X16. Token metadata is written once.  Under the id invariant, whatever
    the call, a token that has metadata keeps it: the entry stays, its
    [token_id] stays, and every key of its [token_info] other than "usage"
    keeps its value; the entry changes at all only in an [update_usage]
    call for that token. *)
Theorem token_info_immutable `{Codec} (p : policy) (sender : address) (ep : entry_point)
    (s : storage) (token_id : nat) (entry : token_metadata_value) :
  token_ids_inv s ->
  token_metadata s !! token_id = Some entry ->
  let s' := (call (dispatch p sender ep) s).1 in
  exists entry',
    token_metadata s' !! token_id = Some entry'
    /\ tm_token_id entry' = tm_token_id entry
    /\ (forall key, key <> "usage" ->
                    tm_token_info entry' !! key = tm_token_info entry !! key)
    /\ (entry' <> entry -> ep = Update_usage token_id).
Proof.
  intros Hinv He. cbv zeta. unfold call.
  assert (exists entry',
             token_metadata s !! token_id = Some entry'
             /\ tm_token_id entry' = tm_token_id entry
             /\ (forall key, key <> "usage" ->
                             tm_token_info entry' !! key = tm_token_info entry !! key)
             /\ (entry' <> entry -> ep = Update_usage token_id)) as Hsame
    by (exists entry; by repeat split).
  destruct (dispatch p sender ep s) as [s'|e] eqn:Hd; simpl; [|done].
  destruct ep as [batch|batch|params|owner info|t|a|m]; simpl in Hd.
  - by apply transfer_Ok_set_ledger in Hd as [l ->].
  - by apply update_operators_Ok_set_operators in Hd as [o ->].
  - unfold balance_of in Hd.
    by apply bind_Ok in Hd as (r & (? & _ & [= <-])%bind_Ok & [= <-]).
  - apply mint_Ok in Hd as [_ ->]. simpl.
    assert (token_id < last_token_id s) as Hlt by (apply (proj1 Hinv); left; eauto).
    by rewrite lookup_insert_ne by lia.
  - apply update_usage_Ok in Hd as (e0 & packed & usage & He0 & _ & _ & ->). simpl.
    destruct (decide (t = token_id)) as [->|Hne].
    + rewrite lookup_insert_eq. rewrite He in He0. injection He0 as <-.
      eexists. split; [done|]. split; [done|]. split; [|done].
      intros key Hkey. simpl. by rewrite lookup_insert_ne.
    + by rewrite lookup_insert_ne.
  - unfold set_administrator in Hd. by apply bind_Ok in Hd as ([] & _ & [= <-]).
  - unfold set_metadata in Hd. by apply bind_Ok in Hd as ([] & _ & [= <-]).
Qed.

Lemma token_info_immutable_witness :
  exists entry',
    token_metadata (call (dispatch pol tanoy (Update_usage 0)) minted).1 !! 0 = Some entry'
    /\ tm_token_id entry' = 0
    /\ tm_token_info entry' !! "name" = None.
Proof.
  destruct (token_info_immutable pol tanoy (Update_usage 0) minted 0
              {| tm_token_id := 0; tm_token_info := {[ "usage" := [x05; x00; x00] ]} |}
              minted_token_ids_inv)
    as (entry' & H1 & H2 & H3 & _).
  - vm_compute. reflexivity.
  - exists entry'. split; [exact H1|]. split; [exact H2|].
    rewrite H3 by discriminate. vm_compute. reflexivity.
Defined.

Lemma Nft_init_token_id_field_inv (admin : address) (contract_metadata : gmap string bytes)
    (infos : list (gmap string bytes)) (owners : gmap nat address) (s : storage) :
  Nft_init admin contract_metadata infos owners = Some s -> token_id_field_inv s.
Proof.
  unfold Nft_init.
  destruct (initial_mint infos owners) as [[l d]|] eqn:Hi; [|done].
  intros [= <-] token_id entry. simpl.
  destruct (initial_mint_lookup _ _ _ _ token_id Hi) as [_ ->].
  destruct (infos !! token_id); [|done]. by intros [= <-].
Qed.

Lemma dispatch_token_id_field_inv `{Codec} (p : policy) (sender : address)
    (ep : entry_point) (s s' : storage) :
  token_id_field_inv s -> dispatch p sender ep s = Ok s' -> token_id_field_inv s'.
Proof.
  intros Hinv Hd.
  destruct ep as [batch|batch|params|owner info|t|a|m]; simpl in Hd.
  - by apply transfer_Ok_set_ledger in Hd as [l ->].
  - by apply update_operators_Ok_set_operators in Hd as [o ->].
  - unfold balance_of in Hd.
    by apply bind_Ok in Hd as (r & (? & _ & [= <-])%bind_Ok & [= <-]).
  - apply mint_Ok in Hd as [_ ->]. intros token_id entry. simpl.
    destruct (decide (last_token_id s = token_id)) as [<-|Hne].
    + rewrite lookup_insert_eq. by intros [= <-].
    + rewrite lookup_insert_ne by done. apply Hinv.
  - apply update_usage_Ok in Hd as (e0 & packed & usage & He0 & _ & _ & ->).
    intros token_id entry. simpl.
    destruct (decide (t = token_id)) as [<-|Hne].
    + rewrite lookup_insert_eq. intros [= <-]. simpl. by apply Hinv.
    + rewrite lookup_insert_ne by done. apply Hinv.
  - unfold set_administrator in Hd. by apply bind_Ok in Hd as ([] & _ & [= <-]).
  - unfold set_metadata in Hd. by apply bind_Ok in Hd as ([] & _ & [= <-]).
Qed.

(** X17. In every storage the contract can reach from its origination,
    each [token_metadata] entry records as [token_id] the key it is stored
    under. *)
Theorem reachable_token_id_field `{Codec} (p : policy) (admin : address)
    (contract_metadata : gmap string bytes) (infos : list (gmap string bytes))
    (owners : gmap nat address) (s0 s : storage) :
  Nft_init admin contract_metadata infos owners = Some s0 ->
  reachable p s0 s ->
  forall token_id entry,
    token_metadata s !! token_id = Some entry -> tm_token_id entry = token_id.
Proof.
  intros H0 Hr. change (token_id_field_inv s).
  induction Hr as [|s sender ep _ IH]; [by eapply Nft_init_token_id_field_inv|].
  apply call_inv; [|done]. intros s' _. by apply dispatch_token_id_field_inv.
Qed.

Lemma reachable_token_id_field_witness :
  Nft_init abby ∅ [∅] ∅ = Some unowned
  /\ token_id_field_inv (call (dispatch pol abby (Mint tanoy ∅)) unowned).1.
Proof.
  assert (Nft_init abby ∅ [∅] ∅ = Some unowned) as H0 by (vm_compute; reflexivity).
  split; [exact H0|].
  exact (reachable_token_id_field pol abby ∅ [∅] ∅ unowned _ H0
           (reachable_call _ _ _ _ _ (reachable_origin _ _))).
Defined.

(** ** Storages where every token has an owner *)

Lemma balance_owned (s : storage) (token_id : nat) :
  owned_inv s ->
  is_defined s token_id = true ->
  exists o,
    get_owner s token_id = Ok o
    /\ forall a, balance_ s a token_id = Ok (if bool_decide (o = a) then 1 else 0).
Proof.
  intros Hown Hd. destruct (Hown _ Hd) as [o Ho]. exists o.
  unfold get_owner, balance_, get_item. by rewrite Hd, Ho.
Qed.

(** X18. Owners persist.  When every defined token has an owner at some
    point, so it is after any number of calls: each defined token then has
    one address with balance 1, the one [get_owner] returns, and every
    other address has balance 0. *)
Theorem reachable_tokens_have_one_owner `{Codec} (p : policy) (s0 s : storage)
    (token_id : nat) :
  owned_inv s0 ->
  reachable p s0 s ->
  is_defined s token_id = true ->
  exists o,
    get_owner s token_id = Ok o
    /\ balance_ s o token_id = Ok 1
    /\ (forall a, a <> o -> balance_ s a token_id = Ok 0).
Proof.
  intros H0 Hr Hd.
  destruct (balance_owned s token_id (reachable_owned_inv p s0 s H0 Hr) Hd)
    as (o & Hg & Hb).
  exists o. split; [done|]. split.
  - by rewrite Hb, bool_decide_eq_true_2.
  - intros a Hne. by rewrite Hb, bool_decide_eq_false_2.
Qed.

Lemma reachable_tokens_have_one_owner_witness :
  owned_inv minted
  /\ exists o,
       get_owner (call (dispatch pol tanoy (Transfer scenario_transfer)) minted).1 0 = Ok o
       /\ balance_ (call (dispatch pol tanoy (Transfer scenario_transfer)) minted).1 o 0
          = Ok 1.
Proof.
  split; [exact minted_owned_inv|].
  destruct (reachable_tokens_have_one_owner pol minted
              (call (dispatch pol tanoy (Transfer scenario_transfer)) minted).1 0
              minted_owned_inv
              (reachable_call _ _ _ _ _ (reachable_origin _ _)))
    as (o & Hg & Hb & _).
  - vm_compute. reflexivity.
  - exists o. split; [exact Hg | exact Hb].
Defined.

Lemma transfer_leg_errors (sender from_ : address) (tx : tx_record) (s : storage)
    (e : error) :
  owned_inv s ->
  transfer_leg pol sender from_ tx s = Err e ->
  In e [FA2_TOKEN_UNDEFINED; FA2_NOT_OPERATOR; FA2_INSUFFICIENT_BALANCE].
Proof.
  intros Hown Hleg.
  destruct (is_defined s (tx_token_id tx)) eqn:Hd.
  2: { rewrite transfer_leg_undefined in Hleg by done. injection Hleg as <-. by left. }
  destruct (decide (authorized s sender from_ (tx_token_id tx))) as [Ha|Hna].
  2: { rewrite transfer_leg_not_operator in Hleg by done. injection Hleg as <-.
       right. by left. }
  rewrite transfer_leg_authorized in Hleg by done.
  destruct (bool_decide (0 < tx_amount tx)); [|done].
  unfold transfer_tx_, get_item in Hleg. destruct (Hown _ Hd) as [o Ho]. rewrite Ho in Hleg.
  destruct (bool_decide (tx_amount tx = 1)); simpl in Hleg.
  - destruct (bool_decide (o = from_)); simpl in Hleg; [done|].
    injection Hleg as <-. right. right. by left.
  - injection Hleg as <-. right. right. by left.
Qed.

Lemma balance_of_batch_errors (s : storage) (reqs : list balance_of_request) (e : error) :
  owned_inv s -> balance_of_batch s reqs = Err e -> e = FA2_TOKEN_UNDEFINED.
Proof.
  intros Hown. unfold balance_of_batch.
  induction reqs as [|req reqs IH]; simpl; [done|].
  unfold balance_ at 1, get_item.
  destruct (is_defined s (req_token_id req)) eqn:Hd; simpl; [|by intros [= <-]].
  destruct (Hown _ Hd) as [o ->]. simpl.
  destruct (map_result _ reqs); simpl; [done|]. intros [= <-]. by apply IH.
Qed.

(** X19. Which failures a call can end in.  With the shipped policy, on a
    storage where every defined token has an owner, [transfer] fails only
    with FA2_TOKEN_UNDEFINED, FA2_NOT_OPERATOR or FA2_INSUFFICIENT_BALANCE,
    [update_operators] only with FA2_NOT_OWNER, [balance_of] only with
    FA2_TOKEN_UNDEFINED, [mint], [set_administrator] and [set_metadata]
    only with FA2_NOT_ADMIN, and [update_usage] only on a map read or on
    [open_some]. *)
Theorem dispatch_errors `{Codec} (sender : address) (ep : entry_point) (s : storage)
    (e : error) :
  owned_inv s ->
  dispatch pol sender ep s = Err e ->
  In e (possible_errors ep).
Proof.
  intros Hown Hd. destruct ep as [batch|batch|params|owner info|t|a|m]; simpl in *.
  - rewrite transfer_run_legs in Hd by done. unfold run_legs in Hd.
    destruct (for__dichotomy (legs batch)
                (fun leg => transfer_leg pol sender leg.1 leg.2) s)
      as [[s' Hs']|(pre & leg & post & s1 & e1 & Hl & Hpre & Hleg)]; [congruence|].
    rewrite Hl, (for__first_failure _ _ _ _ _ _ _ Hpre Hleg) in Hd. injection Hd as <-.
    apply (transfer_leg_errors sender leg.1 leg.2 s1); [|done].
    revert Hpre. apply (for__invariant owned_inv); [|done].
    intros [f tx] s2 s3 _. apply transfer_leg_owned_inv.
  - destruct (decide (Forall (fun action => op_owner (action_permission action) = sender)
                        batch)) as [Hall|Hex].
    + by rewrite update_operators_all_owner in Hd.
    + apply not_Forall_Exists in Hex; [|intros x; apply _].
      rewrite update_operators_not_owner in Hd by done. injection Hd as <-. by left.
  - unfold balance_of in Hd.
    destruct (balance_of_batch s (requests params)) as [r|e1] eqn:Hb; [done|].
    simpl in Hd. injection Hd as <-. left. symmetry. by eapply balance_of_batch_errors.
  - unfold mint in Hd. destruct (is_administrator s sender); [done|].
    injection Hd as <-. by left.
  - unfold update_usage, get_item, open_some in Hd.
    destruct (token_metadata s !! t) as [entry|]; simpl in Hd;
      [|injection Hd as <-; by left].
    destruct (tm_token_info entry !! "usage") as [packed|]; simpl in Hd;
      [|injection Hd as <-; by left].
    destruct (unpack packed); simpl in Hd; [done|]. injection Hd as <-. right. by left.
  - unfold set_administrator in Hd. destruct (is_administrator s sender); [done|].
    injection Hd as <-. by left.
  - unfold set_metadata in Hd. destruct (is_administrator s sender); [done|].
    injection Hd as <-. by left.
Qed.

Lemma dispatch_errors_witness :
  owned_inv minted
  /\ dispatch pol tanoy (Transfer twice_transfer) minted = Err FA2_INSUFFICIENT_BALANCE
  /\ In FA2_INSUFFICIENT_BALANCE (possible_errors (Transfer twice_transfer)).
Proof.
  assert (dispatch pol tanoy (Transfer twice_transfer) minted = Err FA2_INSUFFICIENT_BALANCE)
    as Hd by (vm_compute; reflexivity).
  split; [exact minted_owned_inv|]. split; [exact Hd|].
  exact (dispatch_errors tanoy (Transfer twice_transfer) minted _ minted_owned_inv Hd).
Defined.

(** ** Ids and chains *)

(** X20. Under the id invariant [all_tokens] lists every registered token
    exactly once: it has no repetition, as many elements as
    [token_metadata] has entries, and [total_supply] is 1 for each. *)
Theorem all_tokens_spec (s : storage) :
  token_ids_inv s ->
  NoDup (all_tokens s)
  /\ length (all_tokens s) = size (token_metadata s)
  /\ Forall (fun token_id => total_supply s token_id = Ok 1) (all_tokens s).
Proof.
  intros Hinv. unfold all_tokens. split; [apply NoDup_seq|]. split.
  - by rewrite length_seq, token_ids_inv_size.
  - apply Forall_forall. intros token_id Hin%list_elem_of_In%in_seq.
    assert (is_defined s token_id = true) as Hd by (apply Hinv; lia).
    unfold total_supply, supply_. by rewrite Hd.
Qed.

Lemma all_tokens_spec_witness :
  token_ids_inv minted /\ length (all_tokens minted) = size (token_metadata minted).
Proof.
  split; [exact minted_token_ids_inv|].
  exact (proj1 (proj2 (all_tokens_spec minted minted_token_ids_inv))).
Defined.

(** X21. An id that was never handed out.  Under the id invariant, for an
    id at or above [last_token_id]: the balance and supply views and any
    transfer leg fail with FA2_TOKEN_UNDEFINED, whereas [get_owner],
    [get_usage] and [update_usage], which do not check that the token is
    defined, fail on the map read. *)
Theorem never_minted_id `{Codec} (sender from_ : address) (tx : tx_record)
    (a : address) (s : storage) :
  token_ids_inv s ->
  last_token_id s <= tx_token_id tx ->
  get_balance s {| req_owner := a; req_token_id := tx_token_id tx |}
  = Err FA2_TOKEN_UNDEFINED
  /\ total_supply s (tx_token_id tx) = Err FA2_TOKEN_UNDEFINED
  /\ transfer_leg pol sender from_ tx s = Err FA2_TOKEN_UNDEFINED
  /\ get_owner s (tx_token_id tx) = Err GET_ITEM_MISSING_KEY
  /\ get_usage s (tx_token_id tx) = Err GET_ITEM_MISSING_KEY
  /\ update_usage sender (tx_token_id tx) s = Err GET_ITEM_MISSING_KEY.
Proof.
  intros Hinv Hge.
  assert (is_defined s (tx_token_id tx) = false) as Hd.
  { destruct (is_defined s (tx_token_id tx)) eqn:E; [|done].
    apply Hinv in E. lia. }
  assert (token_metadata s !! tx_token_id tx = None) as Hm by by apply contains_false.
  assert (ledger s !! tx_token_id tx = None) as Hl.
  { apply eq_None_not_Some. intros Hs.
    pose proof (proj1 Hinv (tx_token_id tx) (or_intror Hs)). lia. }
  unfold get_balance, balance_, total_supply, get_owner, get_usage, update_usage, get_item.
  simpl. rewrite Hd, Hm, Hl. repeat split; try done.
  by apply transfer_leg_undefined.
Qed.

Lemma never_minted_id_witness :
  token_ids_inv minted
  /\ get_owner minted 1 = Err GET_ITEM_MISSING_KEY
  /\ total_supply minted 1 = Err FA2_TOKEN_UNDEFINED.
Proof.
  destruct (never_minted_id tanoy tanoy
              {| tx_to_ := abby; tx_token_id := 1; tx_amount := 1 |} tanoy minted
              minted_token_ids_inv) as (_ & H2 & _ & H4 & _).
  - simpl. lia.
  - split; [exact minted_token_ids_inv|]. split; [exact H4 | exact H2].
Defined.

(** X22. Legs of one call see each other.  When the caller is authorized
    for both [a] and [b] and [a] owns the token, one call that moves the
    token from [a] to [b] and then from [b] to [c] succeeds and leaves [c]
    as owner; the same two moves in the other order fail with
    FA2_INSUFFICIENT_BALANCE when [b] is another address than [a], and the
    token stays with [a]. *)
Theorem transfer_chain (sender a b c : address) (token_id : nat) (s : storage) :
  is_defined s token_id = true ->
  authorized s sender a token_id ->
  authorized s sender b token_id ->
  ledger s !! token_id = Some a ->
  let move from_ to_ :=
    {| from_ := from_;
       txs := [ {| tx_to_ := to_; tx_token_id := token_id; tx_amount := 1 |} ] |} in
  transfer pol sender [move a b; move b c] s
  = Ok (set_ledger (<[token_id := c]> (ledger s)) s)
  /\ (a <> b ->
      call (transfer pol sender [move b c; move a b]) s
      = (s, Some FA2_INSUFFICIENT_BALANCE)).
Proof.
  intros Hd Ha Hb Ho move. unfold move. clear move. split.
  - change [?x; ?y] with ([x] ++ [y]).
    assert (forall b1 b2 s0,
               transfer pol sender (b1 ++ b2) s0
               = (s1 <- transfer pol sender b1 s0 ;; transfer pol sender b2 s1)) as Happ
      by (intros; apply for__app).
    rewrite Happ, transfer_single.
    rewrite (transfer_leg_owner_Ok sender a
               {| tx_to_ := b; tx_token_id := token_id; tx_amount := 1 |} s Hd Ha Ho eq_refl).
    cbn [bind tx_token_id tx_to_]. rewrite transfer_single.
    rewrite (transfer_leg_owner_Ok sender b
               {| tx_to_ := c; tx_token_id := token_id; tx_amount := 1 |}
               (set_ledger (<[token_id := b]> (ledger s)) s) Hd Hb
               (lookup_insert_eq _ _ _) eq_refl).
    simpl. f_equal. unfold set_ledger. simpl. by rewrite insert_insert_eq.
  - intros Hne. apply call_Err.
    unfold transfer. simpl.
    by rewrite (transfer_leg_other_owner sender b a
                  {| tx_to_ := c; tx_token_id := token_id; tx_amount := 1 |} s Hd Hb Ho)
      by (done || simpl; lia).
Qed.

Lemma transfer_chain_witness :
  transfer pol tanoy
    [ {| from_ := tanoy;
         txs := [ {| tx_to_ := abby; tx_token_id := 0; tx_amount := 1 |} ] |};
      {| from_ := abby;
         txs := [ {| tx_to_ := tanoy; tx_token_id := 0; tx_amount := 1 |} ] |} ]
    (set_operators
       {[ {| op_owner := abby; op_operator := tanoy; op_token_id := 0 |} := tt ]} minted)
  = Ok (set_ledger (<[0 := tanoy]> (ledger minted))
          (set_operators
             {[ {| op_owner := abby; op_operator := tanoy; op_token_id := 0 |} := tt ]}
             minted)).
Proof.
  apply (proj1 (transfer_chain tanoy tanoy abby tanoy 0
                  (set_operators
                     {[ {| op_owner := abby; op_operator := tanoy; op_token_id := 0 |}
                        := tt ]} minted)
                  ltac:(vm_compute; reflexivity)
                  (or_introl eq_refl)
                  ltac:(apply (bool_decide_unpack _); vm_compute; exact I)
                  ltac:(vm_compute; reflexivity))).
Defined.
